(** * F1 Racing Hub: the data layer of [src/services/api.ts] and the
    driver query of the list page, embedded and verified.

    The development follows the source file by file:
    - [Js] models the pieces of the JavaScript runtime the code relies on
      (truthiness of [string | null], [String.prototype] helpers,
      [Array.prototype.sort/slice/find/findIndex], promises with
      [try]/[catch]);
    - the records of [types/index.ts];
    - the functions of [services/api.ts], one definition per function, with
      the remote service as an explicit record of endpoints;
    - the [filteredAndSortedDrivers] memo of the list page.

    Numbers are integers ([Z]); strings are [string], letter case being
    handled on the ASCII range. *)

From Stdlib Require Import ZArith QArith String Ascii List Lia Permutation Sorted
  OrderedTypeEx DecimalString.
From stdpp Require Import base list strings gmap.

Open Scope string_scope.
Open Scope list_scope.
Open Scope Z_scope.

(* ===================================================================== *)
(** ** The JavaScript runtime used by the code *)
(* ===================================================================== *)

Module Js.

(** *** Promises: an [async] function resolves or rejects. *)

Inductive Failure : Type :=
| RemoteUnavailable            (* axios: network error, timeout, non-2xx *)
| Thrown (message : string).   (* throw new Error(message) *)

Inductive Promise (A : Type) : Type :=
| Resolved (value : A)
| Rejected (reason : Failure).
Arguments Resolved {A} value.
Arguments Rejected {A} reason.

(** [await p; k] *)
Definition bind {A B} (p : Promise A) (k : A -> Promise B) : Promise B :=
  match p with
  | Resolved v => k v
  | Rejected e => Rejected e
  end.

(** [try { body } catch (error) { handler }] *)
Definition try_catch {A} (body : Promise A) (handler : Failure -> Promise A)
  : Promise A :=
  match body with
  | Resolved v => Resolved v
  | Rejected e => handler e
  end.

(** *** Truthiness of [string | null | undefined]. *)

Definition truthy (o : option string) : bool :=
  match o with
  | Some s => negb (String.eqb s EmptyString)
  | None => false
  end.

(** [o || d] where [d] is a string. *)
Definition or_else (o : option string) (d : string) : string :=
  match o with
  | Some s => if String.eqb s EmptyString then d else s
  | None => d
  end.

(** *** Strings. *)

Definition upper_ascii (c : ascii) : ascii :=
  let n := N_of_ascii c in
  if ((97 <=? n) && (n <=? 122))%N then ascii_of_N (n - 32) else c.

Definition lower_ascii (c : ascii) : ascii :=
  let n := N_of_ascii c in
  if ((65 <=? n) && (n <=? 90))%N then ascii_of_N (n + 32) else c.

Fixpoint toUpperCase (s : string) : string :=
  match s with
  | EmptyString => EmptyString
  | String c s' => String (upper_ascii c) (toUpperCase s')
  end.

Fixpoint toLowerCase (s : string) : string :=
  match s with
  | EmptyString => EmptyString
  | String c s' => String (lower_ascii c) (toLowerCase s')
  end.

(** [s.split(sep)] for a one-character separator: never the empty array. *)
Fixpoint split (sep : ascii) (s : string) : list string :=
  match s with
  | EmptyString => [EmptyString]
  | String c s' =>
      if Ascii.eqb c sep then EmptyString :: split sep s'
      else match split sep s' with
           | tok :: toks => String c tok :: toks
           | [] => [String c EmptyString]
           end
  end.

(** [arr.pop()]: the last element, [undefined] on the empty array. *)
Definition pop {A} (arr : list A) : option A := last arr.

(** [s.includes(sub)] *)
Fixpoint includes (s sub : string) : bool :=
  String.prefix sub s ||
  match s with
  | EmptyString => false
  | String _ s' => includes s' sub
  end.

(** *** Arrays. *)

(** [arr.includes(x)] on an array of strings. *)
Definition arr_includes (arr : list string) (x : string) : bool :=
  existsb (String.eqb x) arr.

(** [arr.find(p)] *)
Definition find {A} (p : A -> bool) (arr : list A) : option A :=
  List.find p arr.

(** [arr.findIndex(p)]: the first index satisfying [p], or [-1]. *)
Fixpoint findIndex_from {A} (p : A -> bool) (arr : list A) (i : Z) : Z :=
  match arr with
  | [] => -1
  | x :: arr' => if p x then i else findIndex_from p arr' (i + 1)
  end.

Definition findIndex {A} (p : A -> bool) (arr : list A) : Z :=
  findIndex_from p arr 0.

(** [arr[i]] for an integer index. *)
Definition at_index {A} (arr : list A) (i : Z) : option A :=
  if i <? 0 then None else arr !! Z.to_nat i.

(** [arr.slice(start, end)], relative indices counted from the end when
    negative. *)
Definition slice {A} (arr : list A) (start end_ : Z) : list A :=
  let len := Z.of_nat (length arr) in
  let k := if start <? 0 then Z.max (len + start) 0 else Z.min start len in
  let final := if end_ <? 0 then Z.max (len + end_) 0 else Z.min end_ len in
  take (Z.to_nat (final - k)) (drop (Z.to_nat k) arr).

(** [arr.sort(cmp)].  ECMAScript requires the sort to be stable, and for a
    consistent comparator the result is the unique stable ordering (see
    [sort_is_the_stable_ordering]); it is computed here by insertion from
    the right, an element going in front of the first one it does not
    compare greater than. *)
Fixpoint insert {A} (cmp : A -> A -> Z) (x : A) (l : list A) : list A :=
  match l with
  | [] => [x]
  | y :: l' => if cmp x y <=? 0 then x :: y :: l' else y :: insert cmp x l'
  end.

Fixpoint sort {A} (cmp : A -> A -> Z) (arr : list A) : list A :=
  match arr with
  | [] => []
  | x :: arr' => insert cmp x (sort cmp arr')
  end.

(** *** Numbers that may be NaN: [None] stands for NaN. *)

(** [x - y]: NaN as soon as one side is. *)
Definition minus (x y : option Z) : option Z :=
  match x, y with
  | Some a, Some b => Some (a - b)
  | _, _ => None
  end.

(** [arr.sort(comparefn)] for a [comparefn] that can return NaN, which the
    sort reads as [+0] (SortCompare).  Where NaN makes [comparefn]
    inconsistent on the array, ECMAScript leaves the order to the engine;
    what is proved of the order is under the condition that no comparison
    of the array is NaN. *)
Definition sort_numeric {A} (comparefn : A -> A -> option Z) (arr : list A)
  : list A :=
  sort (fun a b => default 0 (comparefn a b)) arr.

(** *** [Map<string, V>]: entries are kept in insertion order; [set] on a
    present key replaces the value where it stands. *)

Definition JsMap (V : Type) : Type := list (string * V).

Definition Map_has {V} (m : JsMap V) (k : string) : bool :=
  existsb (fun e => String.eqb (fst e) k) m.

Fixpoint Map_get {V} (m : JsMap V) (k : string) : option V :=
  match m with
  | [] => None
  | (k', v) :: m' => if String.eqb k' k then Some v else Map_get m' k
  end.

Fixpoint Map_set {V} (m : JsMap V) (k : string) (v : V) : JsMap V :=
  match m with
  | [] => [(k, v)]
  | (k', v') :: m' =>
      if String.eqb k' k then (k', v) :: m' else (k', v') :: Map_set m' k v
  end.

Definition Map_values {V} (m : JsMap V) : list V := map snd m.

(** A comparator is consistent (ECMAScript, [Array.prototype.sort]) when
    comparing equal is an equivalence, less-than is transitive and
    compatible with it, and swapping the arguments swaps the sign. *)
Record Consistent {A} (cmp : A -> A -> Z) : Prop := {
  cmp_refl : forall a, cmp a a = 0;
  cmp_flip_lt : forall a b, cmp a b < 0 <-> 0 < cmp b a;
  cmp_flip_eq : forall a b, cmp a b = 0 -> cmp b a = 0;
  cmp_le_trans : forall a b c, cmp a b <= 0 -> cmp b c <= 0 -> cmp a c <= 0;
  cmp_eq_trans : forall a b c, cmp a b = 0 -> cmp b c = 0 -> cmp a c = 0
}.

End Js.

Import Js.

(** [x ← p; k] reads [const x = await p; k]. *)
#[global] Instance Promise_bind : MBind Promise := fun A B k p => bind p k.

(* ===================================================================== *)
(** ** types/index.ts *)
(* ===================================================================== *)

Module F1Driver.
Record t : Type := {
  broadcast_name : string;
  country_code : option string;      (* string | null *)
  driver_number : Z;
  first_name : string;
  full_name : string;
  headshot_url : option string;      (* optional, string | null *)
  last_name : string;
  meeting_key : Z;
  name_acronym : string;
  session_key : Z;
  team_colour : option string;       (* optional *)
  team_name : option string          (* optional *)
}.

(** [{...driver, country_code: c}] *)
Definition with_country_code (driver : t) (c : string) : t :=
  {| broadcast_name := broadcast_name driver;
     country_code := Some c;
     driver_number := driver_number driver;
     first_name := first_name driver;
     full_name := full_name driver;
     headshot_url := headshot_url driver;
     last_name := last_name driver;
     meeting_key := meeting_key driver;
     name_acronym := name_acronym driver;
     session_key := session_key driver;
     team_colour := team_colour driver;
     team_name := team_name driver |}.
End F1Driver.
Abbreviation F1Driver := F1Driver.t.

Module F1Session.
Record t : Type := {
  circuit_key : Z;
  circuit_short_name : string;
  country_code : string;
  country_name : string;
  date_end : string;
  date_start : string;
  gmt_offset : string;
  location : string;
  meeting_key : Z;
  session_key : Z;
  session_name : string;
  session_type : string;
  year : Z
}.
End F1Session.
Abbreviation F1Session := F1Session.t.

Module F1Meeting.
Record t : Type := {
  circuit_key : Z;
  circuit_short_name : string;
  country_code : string;
  country_name : string;
  date_start : string;
  gmt_offset : string;
  location : string;
  meeting_key : Z;
  meeting_name : string;
  meeting_official_name : string;
  year : Z
}.
End F1Meeting.
Abbreviation F1Meeting := F1Meeting.t.

Module F1Lap.
(** Durations and speeds are measurements; only [lap_number] is ever
    computed with. *)
Record t : Type := {
  date_start : string;
  driver_number : Z;
  duration_sector_1 : option Q;
  duration_sector_2 : option Q;
  duration_sector_3 : option Q;
  i1_speed : option Q;
  i2_speed : option Q;
  is_pit_out_lap : bool;
  lap_duration : option Q;
  lap_number : Z;
  meeting_key : Z;
  segments_sector_1 : option (list Z);
  segments_sector_2 : option (list Z);
  segments_sector_3 : option (list Z);
  session_key : Z;
  st_speed : option Q
}.
End F1Lap.
Abbreviation F1Lap := F1Lap.t.

Module F1Position.
Record t : Type := {
  date : string;
  driver_number : Z;
  meeting_key : Z;
  position : Z;
  session_key : Z
}.
End F1Position.
Abbreviation F1Position := F1Position.t.

Module F1Team.
Record t : Type := {
  team_name : string;
  team_colour : option string;
  drivers : list F1Driver;
  country_codes : list string
}.

(** [team.drivers.push(driver)] *)
Definition push_driver (team : t) (driver : F1Driver) : t :=
  {| team_name := team_name team;
     team_colour := team_colour team;
     drivers := drivers team ++ [driver];
     country_codes := country_codes team |}.

(** [team.country_codes.push(countryCode)] *)
Definition push_country_code (team : t) (countryCode : string) : t :=
  {| team_name := team_name team;
     team_colour := team_colour team;
     drivers := drivers team;
     country_codes := country_codes team ++ [countryCode] |}.
End F1Team.
Abbreviation F1Team := F1Team.t.

Inductive DriverSortOption : Type :=
| opt_name | opt_team | opt_driver_number | opt_country.

Inductive SortOrder : Type := asc | desc.

Module SortConfig.
Record t : Type := {
  option : DriverSortOption;
  order : SortOrder
}.
End SortConfig.
Abbreviation SortConfig := SortConfig.t.

Record NavigationResult : Type := {
  previous : option F1Driver;
  next : option F1Driver
}.

(* ===================================================================== *)
(** ** services/api.ts *)
(* ===================================================================== *)

(** The OpenF1 service behind the axios instance: one field per endpoint,
    applied to the request parameters.  A request resolves with
    [response.data] or rejects. *)
Record Remote (Any : Type) : Type := {
  get_drivers : Z -> Promise (list F1Driver);          (* session_key *)
  get_laps : Z -> Z -> Promise (list F1Lap);           (* driver_number, session_key *)
  get_sessions : Z -> Promise (list F1Session);        (* year *)
  get_meetings : Z -> Promise (list F1Meeting);        (* year *)
  get_position : Z -> Promise (list F1Position);       (* session_key *)
  get_session_result : Z -> Promise (option (list Any)) (* session_key *)
}.
Arguments get_drivers {Any} _ _.
Arguments get_laps {Any} _ _ _.
Arguments get_sessions {Any} _ _.
Arguments get_meetings {Any} _ _.
Arguments get_position {Any} _ _.
Arguments get_session_result {Any} _ _.

Definition getRecentSessionKey : Promise Z := Resolved 9693.

(** The object literal of [getCountryCodeFallback].  It is only read at
    upper-cased keys, which none of the properties an object inherits
    has. *)
Definition countryMap : gmap string string :=
  list_to_map
    [("VERSTAPPEN", "NLD"); ("NORRIS", "GBR"); ("HAMILTON", "GBR");
     ("RUSSELL", "GBR"); ("LECLERC", "MON"); ("SAINZ", "ESP");
     ("ALONSO", "ESP"); ("PIASTRI", "AUS"); ("GASLY", "FRA");
     ("OCON", "FRA"); ("TSUNODA", "JPN"); ("ALBON", "THA");
     ("STROLL", "CAN"); ("HULKENBERG", "DEU"); ("BEARMAN", "GBR");
     ("ANTONELLI", "ITA"); ("COLAPINTO", "ARG"); ("BORTOLETO", "BRA");
     ("HADJAR", "FRA"); ("LAWSON", "NZL")].

Definition getCountryCodeFallback (driverName : string) : string :=
  let lastName :=
    or_else (toUpperCase <$> pop (split " "%char driverName)) EmptyString in
  or_else (countryMap !! lastName) "INT".

(** The callback of [drivers.map] in [fetchDrivers]. *)
Definition normalize (driver : F1Driver) : F1Driver :=
  F1Driver.with_country_code driver
    (or_else (F1Driver.country_code driver)
             (getCountryCodeFallback (F1Driver.full_name driver))).

(** The callback of [drivers.forEach] in [fetchTeams]. *)
Definition aggregate_step (teamsMap : JsMap F1Team) (driver : F1Driver)
  : JsMap F1Team :=
  let teamName := or_else (F1Driver.team_name driver) "Unknown Team" in
  let teamsMap :=
    if negb (Map_has teamsMap teamName)
    then Map_set teamsMap teamName
           {| F1Team.team_name := teamName;
              F1Team.team_colour := F1Driver.team_colour driver;
              F1Team.drivers := [];
              F1Team.country_codes := [] |}
    else teamsMap in
  match Map_get teamsMap teamName with
  | Some team =>
      let team := F1Team.push_driver team driver in
      let countryCode := or_else (F1Driver.country_code driver) "INT" in
      let team :=
        if negb (arr_includes (F1Team.country_codes team) countryCode)
        then F1Team.push_country_code team countryCode
        else team in
      (* [team] is the object held by the map: the pushes are seen there *)
      Map_set teamsMap teamName team
  | None => teamsMap
  end.

Definition aggregateTeams (drivers : list F1Driver) : list F1Team :=
  Map_values (fold_left aggregate_step drivers []).

(** The body of [getDriverNavigation] once the drivers are fetched. *)
Definition navigate (drivers : list F1Driver) (currentDriverNumber : Z)
  : NavigationResult :=
  let sortedDrivers :=
    sort (fun a b => F1Driver.driver_number a - F1Driver.driver_number b)
         drivers in
  let currentIndex :=
    findIndex (fun d => F1Driver.driver_number d =? currentDriverNumber)
              sortedDrivers in
  {| previous :=
       if 0 <? currentIndex then at_index sortedDrivers (currentIndex - 1)
       else None;
     next :=
       if currentIndex <? Z.of_nat (length sortedDrivers) - 1
       then at_index sortedDrivers (currentIndex + 1)
       else None |}.

Section Gateway.

Context {Any : Type}.
(** [new Date(s).getTime()]: the milliseconds since 1970, and NaN ([None])
    when [s] is not a date the engine can read. *)
Variable getTime : string -> option Z.
Variable api : Remote Any.

Definition fetchDrivers : Promise (list F1Driver) :=
  try_catch
    (sessionKey ← getRecentSessionKey;
     drivers ← get_drivers api sessionKey;
     Resolved (map normalize drivers))
    (fun _ => Rejected (Thrown "Failed to fetch F1 drivers data")).

Definition fetchDriverById (driverNumber : Z) : Promise (option F1Driver) :=
  try_catch
    (drivers ← fetchDrivers;
     Resolved (find (fun d => F1Driver.driver_number d =? driverNumber) drivers))
    (fun _ => Resolved None).

Definition fetchTeams : Promise (list F1Team) :=
  try_catch
    (drivers ← fetchDrivers;
     Resolved (aggregateTeams drivers))
    (fun _ => Rejected (Thrown "Failed to fetch F1 teams data")).

Definition fetchDriverLaps (driverNumber : Z) (limit : option Z)
  : Promise (list F1Lap) :=
  let limit := default 10 limit in
  try_catch
    (sessionKey ← getRecentSessionKey;
     laps ← get_laps api driverNumber sessionKey;
     Resolved
       (slice (sort (fun a b => F1Lap.lap_number b - F1Lap.lap_number a) laps)
              0 limit))
    (fun _ => Resolved []).

Definition fetchRecentSessions (limit : option Z) : Promise (list F1Session) :=
  let limit := default 5 limit in
  try_catch
    (sessions ← get_sessions api 2025;
     Resolved
       (slice (sort_numeric
                 (fun a b => minus (getTime (F1Session.date_start b))
                                   (getTime (F1Session.date_start a)))
                 sessions)
              0 limit))
    (fun _ => Resolved []).

Definition fetchMeetings (year : option Z) : Promise (list F1Meeting) :=
  let year := default 2025 year in
  try_catch (get_meetings api year) (fun _ => Resolved []).

Definition fetchPositions (sessionKey : Z) : Promise (list F1Position) :=
  try_catch (get_position api sessionKey) (fun _ => Resolved []).

Definition getDriverNavigation (currentDriverNumber : Z)
  : Promise NavigationResult :=
  try_catch
    (drivers ← fetchDrivers;
     Resolved (navigate drivers currentDriverNumber))
    (fun _ => Resolved {| previous := None; next := None |}).

Definition fetchSessionResults (sessionKey : option Z) : Promise (list Any) :=
  try_catch
    (currentSessionKey ←
       match sessionKey with
       | Some k => if k =? 0 then getRecentSessionKey else Resolved k
       | None => getRecentSessionKey
       end;
     data ← get_session_result api currentSessionKey;
     Resolved (default [] data))
    (fun _ => Resolved []).

End Gateway.

(* ===================================================================== *)
(** ** The list page: [filteredAndSortedDrivers] *)
(* ===================================================================== *)

Section QueryEngine.

(** [a.localeCompare(b)], whatever the locale of the host. *)
Variable localeCompare : string -> string -> Z.

(** The callback of [drivers.filter]. *)
Definition matchesDriver (searchQuery selectedTeam selectedCountry : string)
  (driver : F1Driver) : bool :=
  let matchesSearch :=
    includes (toLowerCase (F1Driver.full_name driver)) (toLowerCase searchQuery)
    || includes (toLowerCase (F1Driver.broadcast_name driver))
                (toLowerCase searchQuery)
    || match F1Driver.team_name driver with
       | Some team =>
           truthy (Some team)
           && includes (toLowerCase team) (toLowerCase searchQuery)
       | None => false
       end in
  let matchesTeam :=
    negb (truthy (Some selectedTeam))
    || match F1Driver.team_name driver with
       | Some team => String.eqb team selectedTeam
       | None => false
       end in
  let matchesCountry :=
    negb (truthy (Some selectedCountry))
    || String.eqb (or_else (F1Driver.country_code driver) "INT") selectedCountry in
  matchesSearch && matchesTeam && matchesCountry.

(** The callback of [filtered.sort]. *)
Definition compareDrivers (sortConfig : SortConfig) (a b : F1Driver) : Z :=
  let values : (string * string) + (Z * Z) :=
    match SortConfig.option sortConfig with
    | opt_name => inl (F1Driver.full_name a, F1Driver.full_name b)
    | opt_team =>
        inl (or_else (F1Driver.team_name a) EmptyString,
             or_else (F1Driver.team_name b) EmptyString)
    | opt_driver_number =>
        inr (F1Driver.driver_number a, F1Driver.driver_number b)
    | opt_country =>
        inl (or_else (F1Driver.country_code a) "ZZZ",
             or_else (F1Driver.country_code b) "ZZZ")
    end in
  let comparison :=
    match values with
    | inl (aValue, bValue) => localeCompare aValue bValue
    | inr (aValue, bValue) => aValue - bValue
    end in
  match SortConfig.order sortConfig with
  | asc => comparison
  | desc => - comparison
  end.

Definition filterAndSort (drivers : list F1Driver)
  (searchQuery selectedTeam selectedCountry : string) (sortConfig : SortConfig)
  : list F1Driver :=
  let filtered :=
    List.filter (matchesDriver searchQuery selectedTeam selectedCountry) drivers in
  sort (compareDrivers sortConfig) filtered.

End QueryEngine.

(* ===================================================================== *)
(** ** Vocabulary of the statements, and sample data *)
(* ===================================================================== *)

(** The upper-cased last token of a name: the key of the fallback table. *)
Definition surname (driverName : string) : string :=
  toUpperCase (List.last (split " "%char driverName) EmptyString).

(** The key under which [fetchTeams] files a driver. *)
Definition team_key (driver : F1Driver) : string :=
  or_else (F1Driver.team_name driver) "Unknown Team".

(** What [fetchTeams] keeps of its map while it has seen [processed]. *)
Definition aggregated (processed : list F1Driver) (teamsMap : JsMap F1Team)
  : Prop :=
  NoDup (map fst teamsMap) /\
  Forall (fun entry =>
            F1Team.team_name (snd entry) = fst entry /\
            F1Team.drivers (snd entry)
            = List.filter (fun d => String.eqb (team_key d) (fst entry)) processed)
         teamsMap /\
  (forall d, d ∈ processed -> team_key d ∈ map fst teamsMap) /\
  Permutation (concat (map (fun entry => F1Team.drivers (snd entry)) teamsMap))
              processed.

(** Comparison by character codes: the [localeCompare] of a plain locale. *)
Definition codeCompare (a b : string) : Z :=
  match String.compare a b with
  | Lt => -1
  | Eq => 0
  | Gt => 1
  end.

Definition sampleDriver (number : Z) (name : string)
  (code team : option string) : F1Driver :=
  {| F1Driver.broadcast_name := name;
     F1Driver.country_code := code;
     F1Driver.driver_number := number;
     F1Driver.first_name := EmptyString;
     F1Driver.full_name := name;
     F1Driver.headshot_url := None;
     F1Driver.last_name := EmptyString;
     F1Driver.meeting_key := 1254;
     F1Driver.name_acronym := EmptyString;
     F1Driver.session_key := 9693;
     F1Driver.team_colour := None;
     F1Driver.team_name := team |}.

Definition sampleLap (number : Z) : F1Lap :=
  {| F1Lap.date_start := EmptyString;
     F1Lap.driver_number := 1;
     F1Lap.duration_sector_1 := None;
     F1Lap.duration_sector_2 := None;
     F1Lap.duration_sector_3 := None;
     F1Lap.i1_speed := None;
     F1Lap.i2_speed := None;
     F1Lap.is_pit_out_lap := false;
     F1Lap.lap_duration := None;
     F1Lap.lap_number := number;
     F1Lap.meeting_key := 1254;
     F1Lap.segments_sector_1 := None;
     F1Lap.segments_sector_2 := None;
     F1Lap.segments_sector_3 := None;
     F1Lap.session_key := 9693;
     F1Lap.st_speed := None |}.

(** A service that cannot be reached. *)
Definition offline : Remote unit :=
  {| get_drivers := fun _ => Rejected RemoteUnavailable;
     get_laps := fun _ _ => Rejected RemoteUnavailable;
     get_sessions := fun _ => Rejected RemoteUnavailable;
     get_meetings := fun _ => Rejected RemoteUnavailable;
     get_position := fun _ => Rejected RemoteUnavailable;
     get_session_result := fun _ => Rejected RemoteUnavailable |}.

(** A service that answers with fixed drivers and laps. *)
Definition recorded (drivers : list F1Driver) (laps : list F1Lap)
  : Remote unit :=
  {| get_drivers := fun _ => Resolved drivers;
     get_laps := fun _ _ => Resolved laps;
     get_sessions := fun _ => Resolved [];
     get_meetings := fun _ => Resolved [];
     get_position := fun _ => Resolved [];
     get_session_result := fun _ => Resolved None |}.

Definition sampleDrivers : list F1Driver :=
  [sampleDriver 44 "Lewis HAMILTON" (Some "GBR") (Some "Ferrari");
   sampleDriver 1 "Max VERSTAPPEN" None (Some "Red Bull Racing");
   sampleDriver 16 "Charles LECLERC" (Some EmptyString) (Some "Ferrari");
   sampleDriver 7 "Jack DOOHAN" None None].

Definition sampleLaps : list F1Lap :=
  map sampleLap [5; 1; 12; 3; 9; 2; 11; 7; 4; 10; 6; 8].

(* ===================================================================== *)
(** ** More of the runtime: sets and the default sort *)
(* ===================================================================== *)

(** [set.add(x)] on a [Set<string>] kept in insertion order. *)
Definition Set_add (set : list string) (x : string) : list string :=
  if arr_includes set x then set else set ++ [x].

(** [Array.from(new Set(arr))] *)
Definition new_Set (arr : list string) : list string :=
  fold_left Set_add arr [].

(** [arr.filter(Boolean)] on an array of [string | undefined]. *)
Definition filter_Boolean (arr : list (option string)) : list string :=
  omap (fun o => if truthy o then o else None) arr.

(** [arr.sort()] on strings: ascending by character codes. *)
Definition sort_default (arr : list string) : list string :=
  sort codeCompare arr.

(** [Promise.all([p1, p2, p3])]: the three values, or a rejection (of
    several, the one of the earliest promise in the array is taken). *)
Definition Promise_all3 {A B C} (p1 : Promise A) (p2 : Promise B)
  (p3 : Promise C) : Promise (A * B * C) :=
  match p1, p2, p3 with
  | Resolved a, Resolved b, Resolved c => Resolved (a, b, c)
  | Rejected e, _, _ => Rejected e
  | _, Rejected e, _ => Rejected e
  | _, _, Rejected e => Rejected e
  end.

(* ===================================================================== *)
(** ** The list page: filter options and sort buttons *)
(* ===================================================================== *)

(** The [useMemo] computing [teams] and [countries] for the two selects. *)
Definition filterOptions (drivers : list F1Driver) : list string * list string :=
  let teamSet := new_Set (filter_Boolean (map F1Driver.team_name drivers)) in
  let countrySet :=
    new_Set (filter_Boolean
               (map (fun d => Some (or_else (F1Driver.country_code d) "INT"))
                    drivers)) in
  let uniqueTeams := sort_default teamSet in
  let uniqueCountries := sort_default countrySet in
  (uniqueTeams, uniqueCountries).

Definition DriverSortOption_eqb (a b : DriverSortOption) : bool :=
  match a, b with
  | opt_name, opt_name | opt_team, opt_team
  | opt_driver_number, opt_driver_number | opt_country, opt_country => true
  | _, _ => false
  end.

(** The updater passed to [setSortConfig] by [handleSort]. *)
Definition handleSort (option : DriverSortOption) (prev : SortConfig)
  : SortConfig :=
  {| SortConfig.option := option;
     SortConfig.order :=
       if DriverSortOption_eqb (SortConfig.option prev) option
          && match SortConfig.order prev with asc => true | desc => false end
       then desc else asc |}.

(* ===================================================================== *)
(** ** The gallery page *)
(* ===================================================================== *)

(** The [useMemo] computing [countries]. *)
Definition galleryCountries (teams : list F1Team) : list string :=
  let allCountries := flat_map F1Team.country_codes teams in
  let countrySet := new_Set allCountries in
  sort_default countrySet.

(** The callback of [teams.filter]. *)
Definition matchesTeam (searchQuery selectedCountry : string) (minDrivers : Z)
  (team : F1Team) : bool :=
  let matchesSearch :=
    includes (toLowerCase (F1Team.team_name team)) (toLowerCase searchQuery)
    || existsb
         (fun driver =>
            includes (toLowerCase (F1Driver.full_name driver))
                     (toLowerCase searchQuery)
            || includes (toLowerCase (F1Driver.broadcast_name driver))
                        (toLowerCase searchQuery))
         (F1Team.drivers team) in
  let matchesCountry :=
    negb (truthy (Some selectedCountry))
    || arr_includes (F1Team.country_codes team) selectedCountry in
  let matchesDriverCount :=
    minDrivers <=? Z.of_nat (length (F1Team.drivers team)) in
  matchesSearch && matchesCountry && matchesDriverCount.

Definition filteredTeams (teams : list F1Team)
  (searchQuery selectedCountry : string) (minDrivers : Z) : list F1Team :=
  List.filter (matchesTeam searchQuery selectedCountry minDrivers) teams.

(** [handleTeamClick]: the driver number of the route [/driver/<number>] it
    navigates to, if it navigates. *)
Definition handleTeamClick (teams : list F1Team) (teamName : string)
  : option Z :=
  match find (fun t => String.eqb (F1Team.team_name t) teamName) teams with
  | Some team =>
      if 0 <? Z.of_nat (length (F1Team.drivers team))
      then F1Driver.driver_number <$> at_index (F1Team.drivers team) 0
      else None
  | None => None
  end.

(* ===================================================================== *)
(** ** The detail page *)
(* ===================================================================== *)

Module DetailPage.

(** The state hooks of the component. *)
Record State : Type := {
  driver : option F1Driver;
  laps : list F1Lap;
  navigation : NavigationResult;
  loading : bool;
  error : option string
}.

Definition initial : State :=
  {| driver := None;
     laps := [];
     navigation := {| previous := None; next := None |};
     loading := true;
     error := None |}.

Definition setDriver (d : option F1Driver) (st : State) : State :=
  {| driver := d; laps := laps st; navigation := navigation st;
     loading := loading st; error := error st |}.

Definition setLaps (l : list F1Lap) (st : State) : State :=
  {| driver := driver st; laps := l; navigation := navigation st;
     loading := loading st; error := error st |}.

Definition setNavigation (n : NavigationResult) (st : State) : State :=
  {| driver := driver st; laps := laps st; navigation := n;
     loading := loading st; error := error st |}.

Definition setLoading (b : bool) (st : State) : State :=
  {| driver := driver st; laps := laps st; navigation := navigation st;
     loading := b; error := error st |}.

Definition setError (e : option string) (st : State) : State :=
  {| driver := driver st; laps := laps st; navigation := navigation st;
     loading := loading st; error := e |}.

Section Load.

Context {Any : Type}.
(** [`${n}`] *)
Variable numberToString : Z -> string.
Variable api : Remote Any.

(** [loadDriverData]: the state once the function has run. *)
Definition loadDriverData (driverNum : Z) (st : State) : State :=
  let st := setLoading true st in
  let st := setError None st in
  let st :=
    match Promise_all3 (fetchDriverById api driverNum)
                       (fetchDriverLaps api driverNum None)
                       (getDriverNavigation api driverNum) with
    | Resolved (driverData, lapsData, navData) =>
        match driverData with
        | None =>
            setError
              (Some (String.append "Driver with number "
                       (String.append (numberToString driverNum) " not found.")))
              st
        | Some d => setNavigation navData (setLaps lapsData (setDriver (Some d) st))
        end
    | Rejected _ => setError (Some "Failed to load driver data") st
    end in
  setLoading false st.

End Load.

(** The page shows its error panel. *)
Definition showsError (st : State) : bool :=
  truthy (error st) || match driver st with Some _ => false | None => true end.

(** The rows of the lap table, and whether the note on hidden laps shows. *)
Definition shownLaps (st : State) : list F1Lap := slice (laps st) 0 10.

Definition showsHiddenLapsNote (st : State) : bool :=
  10 <? Z.of_nat (length (laps st)).

(** [handlePreviousDriver] and [handleNextDriver]: the driver number of the
    route navigated to, if any. *)
Definition handlePreviousDriver (st : State) : option Z :=
  F1Driver.driver_number <$> previous (navigation st).

Definition handleNextDriver (st : State) : option Z :=
  F1Driver.driver_number <$> next (navigation st).

End DetailPage.

(* ===================================================================== *)
(** ** Vocabulary of the further statements *)
(* ===================================================================== *)

(** The country code [fetchTeams] and the pages read off a driver. *)
Definition driver_code (driver : F1Driver) : string :=
  or_else (F1Driver.country_code driver) "INT".

(** What the entry of a team holds once [fetchTeams] has seen [processed]:
    the drivers of its key in input order, at least one, their distinct
    country codes in first-seen order, and the colour of the first. *)
Definition team_describes (processed : list F1Driver)
  (entry : string * F1Team) : Prop :=
  let members :=
    List.filter (fun d => String.eqb (team_key d) (fst entry)) processed in
  F1Team.team_name (snd entry) = fst entry /\
  F1Team.drivers (snd entry) = members /\
  members <> [] /\
  F1Team.country_codes (snd entry) = new_Set (map driver_code members) /\
  F1Team.team_colour (snd entry) = (head members ≫= F1Driver.team_colour).

(** The detail page after a sequence of visits, each to a driver number
    with the service as it then answers. *)
Definition visited {Any : Type} (numberToString : Z -> string)
  (visits : list (Remote Any * Z)) : DetailPage.State :=
  fold_left
    (fun st visit =>
       DetailPage.loadDriverData numberToString (fst visit) (snd visit) st)
    visits DetailPage.initial.

(** Session [a] starts no later than session [b], both dates being read. *)
Definition starts_no_later (getTime : string -> option Z) (a b : F1Session)
  : Prop :=
  exists ta tb,
    getTime (F1Session.date_start a) = Some ta /\
    getTime (F1Session.date_start b) = Some tb /\
    ta <= tb.

(** More sample data: sessions, and a service that answers with them. *)
Definition sampleSession (name start : string) : F1Session :=
  {| F1Session.circuit_key := 10;
     F1Session.circuit_short_name := "Melbourne";
     F1Session.country_code := "AUS";
     F1Session.country_name := "Australia";
     F1Session.date_end := start;
     F1Session.date_start := start;
     F1Session.gmt_offset := "11:00:00";
     F1Session.location := "Melbourne";
     F1Session.meeting_key := 1254;
     F1Session.session_key := 9693;
     F1Session.session_name := name;
     F1Session.session_type := name;
     F1Session.year := 2025 |}.

Definition sampleSessions : list F1Session :=
  [sampleSession "Practice 1" "2025-03-14T01:30:00+00:00";
   sampleSession "Race" "2025-03-16T04:00:00+00:00";
   sampleSession "Qualifying" "2025-03-15T05:00:00+00:00"].

(** Three sessions of which the second has no date yet. *)
Definition undatedSessions : list F1Session :=
  [sampleSession "Testing" "2025-01-10T09:00:00+00:00";
   sampleSession "Sprint" "TBC";
   sampleSession "Race" "2025-06-15T18:00:00+00:00"].

Definition scheduled (sessions : list F1Session) : Remote unit :=
  {| get_drivers := fun _ => Resolved [];
     get_laps := fun _ _ => Resolved [];
     get_sessions := fun _ => Resolved sessions;
     get_meetings := fun _ => Resolved [];
     get_position := fun _ => Resolved [];
     get_session_result := fun _ => Resolved None |}.

(** The clock on the timestamps the service sends, of the form
    [2025-03-16T04:00:00+00:00]: the milliseconds from 1970-01-01T00:00:00
    UTC to that instant.  Any other text counts as unreadable here. *)
Definition digit (c : ascii) : option Z :=
  let n := Z.of_N (N_of_ascii c) - 48 in
  if (0 <=? n) && (n <=? 9) then Some n else None.

Definition digits (s : string) : option Z :=
  fold_left (fun acc c => n ← acc; d ← digit c; Some (10 * n + d))
            (list_ascii_of_string s) (Some 0).

Definition daysInMonth (year month : Z) : Z :=
  if month =? 2
  then if ((year mod 4 =? 0) && negb (year mod 100 =? 0)) || (year mod 400 =? 0)
       then 29 else 28
  else if (month =? 4) || (month =? 6) || (month =? 9) || (month =? 11)
       then 30 else 31.

(** The days from 1970-01-01 to a date of the Gregorian calendar. *)
Definition daysFromEpoch (year month day : Z) : Z :=
  let y := if month <=? 2 then year - 1 else year in
  let era := y / 400 in
  let yearOfEra := y - era * 400 in
  let m := if month <=? 2 then month + 9 else month - 3 in
  let dayOfYear := (153 * m + 2) / 5 + day - 1 in
  let dayOfEra := yearOfEra * 365 + yearOfEra / 4 - yearOfEra / 100 + dayOfYear in
  era * 146097 + dayOfEra - 719468.

Definition utcTime (date : string) : option Z :=
  if negb (String.eqb (substring 4 1 date) "-"
           && String.eqb (substring 7 1 date) "-"
           && String.eqb (substring 10 1 date) "T"
           && String.eqb (substring 13 1 date) ":"
           && String.eqb (substring 16 1 date) ":"
           && String.eqb (substring 19 7 date) "+00:00")
  then None
  else
    year ← digits (substring 0 4 date);
    month ← digits (substring 5 2 date);
    day ← digits (substring 8 2 date);
    hours ← digits (substring 11 2 date);
    minutes ← digits (substring 14 2 date);
    seconds ← digits (substring 17 2 date);
    if (1 <=? month) && (month <=? 12) && (1 <=? day)
       && (day <=? daysInMonth year month)
       && (hours <=? 23) && (minutes <=? 59) && (seconds <=? 59)
    then Some ((((daysFromEpoch year month day * 24 + hours) * 60 + minutes)
                * 60 + seconds) * 1000)
    else None.

(** The digits a template literal prints for an integer, as in
    [`Driver with number ${driverNum} not found.`]. *)
Definition decimal (n : Z) : string := NilZero.string_of_int (Z.to_int n).

(* ===================================================================== *)
(** ** Facts about the runtime model *)
(* ===================================================================== *)

Section SortFacts.

Context {A : Type} (cmp : A -> A -> Z).

Lemma insert_Permutation (x : A) (l : list A) :
  Permutation (insert cmp x l) (x :: l).
Proof.
  induction l as [|y l IH]; simpl; [reflexivity|].
  destruct (cmp x y <=? 0); [reflexivity|].
  rewrite IH. apply perm_swap.
Qed.

Lemma sort_Permutation (l : list A) : Permutation (sort cmp l) l.
Proof.
  induction l as [|x l IH]; simpl; [reflexivity|].
  rewrite insert_Permutation. now constructor.
Qed.

Lemma sort_length (l : list A) : length (sort cmp l) = length l.
Proof. apply Permutation_length, sort_Permutation. Qed.

(** Elements that pairwise never compare greater keep their order: this is
    what stability amounts to. *)
Lemma insert_filter (p : A -> bool) (x : A) (l : list A) :
  (forall a b, p a = true -> p b = true -> cmp a b <= 0) ->
  List.filter p (insert cmp x l) = List.filter p (x :: l).
Proof.
  intros Hp. induction l as [|y l IH]; [reflexivity|].
  cbn [insert]. destruct (Z.leb_spec (cmp x y) 0) as [Hle|Hgt]; [reflexivity|].
  cbn [List.filter] in *. rewrite IH.
  destruct (p x) eqn:Hx, (p y) eqn:Hy; try reflexivity.
  specialize (Hp x y Hx Hy). lia.
Qed.

Lemma sort_filter (p : A -> bool) (l : list A) :
  (forall a b, p a = true -> p b = true -> cmp a b <= 0) ->
  List.filter p (sort cmp l) = List.filter p l.
Proof.
  intros Hp. induction l as [|x l IH]; [reflexivity|].
  cbn [sort]. rewrite insert_filter by assumption.
  cbn [List.filter]. now rewrite IH.
Qed.

Hypothesis cmp_ok : Consistent cmp.

Lemma insert_StronglySorted (x : A) (l : list A) :
  StronglySorted (fun a b => cmp a b <= 0) l ->
  StronglySorted (fun a b => cmp a b <= 0) (insert cmp x l).
Proof.
  induction 1 as [|y l Hl IH Hy]; cbn [insert].
  - repeat constructor.
  - destruct (Z.leb_spec (cmp x y) 0) as [Hle|Hgt].
    + constructor; [now constructor|].
      constructor; [assumption|].
      eapply Forall_impl; [exact Hy|].
      intros z Hz. cbv beta in *. eapply (cmp_le_trans cmp cmp_ok); eassumption.
    + constructor; [assumption|].
      rewrite (insert_Permutation x l). constructor; [|assumption].
      apply (cmp_flip_lt cmp cmp_ok) in Hgt. lia.
Qed.

Lemma sort_StronglySorted (l : list A) :
  StronglySorted (fun a b => cmp a b <= 0) (sort cmp l).
Proof.
  induction l as [|x l IH]; cbn [sort]; [constructor|].
  now apply insert_StronglySorted.
Qed.

(** The members of one equivalence class of the comparator come out in the
    order they went in. *)
Lemma sort_stable (a : A) (l : list A) :
  List.filter (fun x => cmp a x =? 0) (sort cmp l)
  = List.filter (fun x => cmp a x =? 0) l.
Proof.
  apply sort_filter. intros x y Hx%Z.eqb_eq Hy%Z.eqb_eq.
  apply (cmp_flip_eq cmp cmp_ok) in Hx.
  rewrite (cmp_eq_trans cmp cmp_ok x a y Hx Hy). lia.
Qed.

Lemma filter_head_elem (p : A -> bool) (l : list A) (x : A) (rest : list A) :
  List.filter p l = x :: rest -> x ∈ l.
Proof.
  intros H. apply list_elem_of_In.
  apply (proj1 (filter_In p x l)). rewrite H. now left.
Qed.

(** The stable ordering is unique: two lists ordered by the comparator in
    which every equivalence class appears in the same order are equal.  So
    [sort] computes what any conforming engine returns. *)
Lemma stable_ordering_unique (l1 l2 : list A) :
  StronglySorted (fun a b => cmp a b <= 0) l1 ->
  StronglySorted (fun a b => cmp a b <= 0) l2 ->
  (forall a, List.filter (fun x => cmp a x =? 0) l1
             = List.filter (fun x => cmp a x =? 0) l2) ->
  l1 = l2.
Proof.
  intros H1. revert l2.
  induction H1 as [|a l1 H1 IH Ha]; intros l2 H2 Hcls.
  - destruct l2 as [|b l2]; [reflexivity|exfalso].
    specialize (Hcls b). cbn [List.filter] in Hcls.
    rewrite (cmp_refl cmp cmp_ok b) in Hcls. discriminate.
  - destruct H2 as [|b l2 H2 Hb].
    { exfalso. specialize (Hcls a). cbn [List.filter] in Hcls.
      rewrite (cmp_refl cmp cmp_ok a) in Hcls. discriminate. }
    assert (a = b) as <-.
    { pose proof (Hcls a) as Hca. pose proof (Hcls b) as Hcb.
      cbn [List.filter] in Hca, Hcb.
      rewrite (cmp_refl cmp cmp_ok) in Hca, Hcb. cbn [Z.eqb] in Hca, Hcb.
      destruct (Z.eqb_spec (cmp a b) 0) as [E|E]; [congruence|exfalso].
      assert (Hne : cmp b a <> 0).
      { intros E'. apply E. now apply (cmp_flip_eq cmp cmp_ok). }
      destruct (Z.eqb_spec (cmp b a) 0) as [|_]; [contradiction|].
      symmetry in Hca. apply filter_head_elem in Hca.
      apply filter_head_elem in Hcb.
      rewrite Forall_forall in Ha, Hb.
      specialize (Ha b Hcb). specialize (Hb a Hca). cbv beta in Ha, Hb.
      assert (cmp b a < 0) as Hlt by lia.
      apply (cmp_flip_lt cmp cmp_ok) in Hlt. lia. }
    f_equal. apply IH; [assumption|].
    intros c. specialize (Hcls c). cbn [List.filter] in Hcls.
    destruct (cmp c a =? 0); congruence.
Qed.

Lemma sort_is_the_stable_ordering (l r : list A) :
  StronglySorted (fun a b => cmp a b <= 0) r ->
  (forall a, List.filter (fun x => cmp a x =? 0) r
             = List.filter (fun x => cmp a x =? 0) l) ->
  r = sort cmp l.
Proof.
  intros Hr Hcls. apply stable_ordering_unique; [assumption|apply sort_StronglySorted|].
  intros a. now rewrite sort_stable.
Qed.

End SortFacts.

Lemma sort_map {A B : Type} (f : A -> B) (cmp : B -> B -> Z) (l : list A) :
  map f (sort (fun a b => cmp (f a) (f b)) l) = sort cmp (map f l).
Proof.
  induction l as [|x l IH]; [reflexivity|].
  cbn [sort map]. rewrite <- IH. clear IH.
  induction (sort (fun a b => cmp (f a) (f b)) l) as [|y s IHs]; [reflexivity|].
  cbn [insert map]. destruct (cmp (f x) (f y) <=? 0); cbn [map]; congruence.
Qed.

Lemma Consistent_minus : Consistent (fun a b : Z => a - b).
Proof. split; intros; lia. Qed.

Lemma Consistent_rev_minus : Consistent (fun a b : Z => b - a).
Proof. split; intros; lia. Qed.

Lemma Consistent_on {A B : Type} (f : A -> B) (cmp : B -> B -> Z) :
  Consistent cmp -> Consistent (fun a b => cmp (f a) (f b)).
Proof.
  intros [H1 H2 H3 H4 H5]. split; intros; eauto.
Qed.

Lemma Consistent_opp {A : Type} (cmp : A -> A -> Z) :
  Consistent cmp -> Consistent (fun a b => - cmp a b).
Proof.
  intros [H1 H2 H3 H4 H5]. split.
  - intros a. rewrite H1. reflexivity.
  - intros a b. specialize (H2 b a). lia.
  - intros a b Hab. rewrite H3; lia.
  - intros a b c Hab Hbc.
    enough (cmp c a <= 0) as Hca.
    { destruct (Z.eq_dec (cmp c a) 0) as [E|E].
      - rewrite (H3 _ _ E). lia.
      - assert (cmp c a < 0) as L by lia. apply H2 in L. lia. }
    apply (H4 c b a).
    + destruct (Z.eq_dec (cmp b c) 0) as [E|E]; [rewrite (H3 _ _ E); lia|].
      assert (0 < cmp b c) as L by lia. apply H2 in L. lia.
    + destruct (Z.eq_dec (cmp a b) 0) as [E|E]; [rewrite (H3 _ _ E); lia|].
      assert (0 < cmp a b) as L by lia. apply H2 in L. lia.
  - intros a b c Hab Hbc. rewrite (H5 a b c); lia.
Qed.

Lemma filter_nothing {A : Type} (f : A -> bool) (l : list A) :
  (forall x, x ∈ l -> f x = false) -> List.filter f l = [].
Proof.
  induction l as [|x l IH]; intros H; [reflexivity|]. cbn [List.filter].
  rewrite (H x) by left. apply IH. intros y Hy. apply H. now right.
Qed.

Lemma filter_length_Permutation {A : Type} (f : A -> bool) (l1 l2 : list A) :
  Permutation l1 l2 -> length (List.filter f l1) = length (List.filter f l2).
Proof.
  induction 1 as [|x l1 l2 _ IH|x y l|l1 l2 l3 _ IH1 _ IH2]; cbn [List.filter].
  - reflexivity.
  - destruct (f x); cbn [length]; congruence.
  - destruct (f x), (f y); reflexivity.
  - congruence.
Qed.

Lemma findIndex_from_spec {A : Type} (p : A -> bool) (l : list A) (i : Z) :
  (findIndex_from p l i = -1 /\ Forall (fun x => p x = false) l)
  \/ (exists (k : nat) (x : A),
        findIndex_from p l i = i + Z.of_nat k /\ l !! k = Some x /\ p x = true
        /\ forall (j : nat) (y : A),
             (j < k)%nat -> l !! j = Some y -> p y = false).
Proof.
  revert i. induction l as [|x l IH]; intros i; cbn [findIndex_from].
  - left. split; [reflexivity|constructor].
  - destruct (p x) eqn:Hx.
    + right. exists 0%nat, x. repeat split; [lia|assumption|].
      intros j y Hj. lia.
    + destruct (IH (i + 1)) as [[E F]|(k & z & E & Hk & Hz & Hlt)].
      * left. split; [assumption|now constructor].
      * right. exists (S k), z. repeat split; [lia|assumption|assumption|].
        intros [|j] y Hj Hy; cbn in Hy; [congruence|].
        apply (Hlt j y); [lia|assumption].
Qed.

Lemma StronglySorted_lookup {A : Type} (R : A -> A -> Prop) (l : list A)
  (i j : nat) (x y : A) :
  StronglySorted R l -> (i < j)%nat ->
  l !! i = Some x -> l !! j = Some y -> R x y.
Proof.
  intros Hs. revert i j. induction Hs as [|a l Hs IH Ha]; intros i j Hij Hi Hj.
  - discriminate.
  - destruct j as [|j]; [lia|]. cbn in Hj.
    destruct i as [|i]; cbn in Hi.
    + injection Hi as ->. rewrite Forall_forall in Ha. apply Ha.
      eapply list_elem_of_lookup_2; eassumption.
    + apply (IH i j); [lia|assumption..].
Qed.

Lemma StronglySorted_weaken {A : Type} (R R' : A -> A -> Prop) (l : list A) :
  (forall a b, R a b -> R' a b) -> StronglySorted R l -> StronglySorted R' l.
Proof.
  intros HR. induction 1 as [|a l Hs IH Ha]; constructor; [assumption|].
  eapply Forall_impl; [exact Ha|]. intros b. apply HR.
Qed.

Lemma sort_byNumber_sorted (drivers : list F1Driver) :
  StronglySorted
    (fun a b => F1Driver.driver_number a <= F1Driver.driver_number b)
    (sort (fun a b => F1Driver.driver_number a - F1Driver.driver_number b) drivers).
Proof.
  eapply StronglySorted_weaken.
  2: { apply sort_StronglySorted.
       apply (Consistent_on F1Driver.driver_number (fun a b => a - b)).
       apply Consistent_minus. }
  cbv beta. intros; lia.
Qed.

(* ===================================================================== *)
(** ** The gateway functions built on [fetchDrivers] *)
(* ===================================================================== *)

Lemma fetchDrivers_outcome {Any : Type} (api : Remote Any) :
  fetchDrivers api
  = match get_drivers api 9693 with
    | Resolved raw => Resolved (map normalize raw)
    | Rejected _ => Rejected (Thrown "Failed to fetch F1 drivers data")
    end.
Proof.
  unfold fetchDrivers, getRecentSessionKey. cbn [mbind Promise_bind bind].
  now destruct (get_drivers api 9693).
Qed.

(** [getDriverNavigation] is [navigate] on the fetched drivers and never
    rejects; [fetchTeams] is [aggregateTeams] on the fetched drivers. *)
Lemma getDriverNavigation_outcome {Any : Type} (api : Remote Any)
  (currentDriverNumber : Z) :
  getDriverNavigation api currentDriverNumber
  = match get_drivers api 9693 with
    | Resolved raw => Resolved (navigate (map normalize raw) currentDriverNumber)
    | Rejected _ => Resolved {| previous := None; next := None |}
    end.
Proof.
  unfold getDriverNavigation. rewrite fetchDrivers_outcome.
  now destruct (get_drivers api 9693).
Qed.

Lemma fetchTeams_outcome {Any : Type} (api : Remote Any) :
  fetchTeams api
  = match get_drivers api 9693 with
    | Resolved raw => Resolved (aggregateTeams (map normalize raw))
    | Rejected _ => Rejected (Thrown "Failed to fetch F1 teams data")
    end.
Proof.
  unfold fetchTeams. rewrite fetchDrivers_outcome.
  now destruct (get_drivers api 9693).
Qed.

(* ===================================================================== *)
(** ** Selector/Navigator *)
(* ===================================================================== *)

Lemma navigate_not_found (drivers : list F1Driver) (n : Z) :
  let sorted :=
    sort (fun a b => F1Driver.driver_number a - F1Driver.driver_number b) drivers in
  findIndex (fun d => F1Driver.driver_number d =? n) sorted = -1 ->
  navigate drivers n = {| previous := None; next := head sorted |}.
Proof.
  intros sorted E. unfold navigate. fold sorted. rewrite E.
  change (0 <? -1) with false. cbv iota. f_equal.
  destruct sorted as [|x s]; [reflexivity|].
  cbn [length head].
  replace (-1 <? Z.of_nat (S (length s)) - 1) with true
    by (symmetry; apply Z.ltb_lt; lia).
  reflexivity.
Qed.

Lemma navigate_found (drivers : list F1Driver) (n : Z) (k : nat) :
  let sorted :=
    sort (fun a b => F1Driver.driver_number a - F1Driver.driver_number b) drivers in
  findIndex (fun d => F1Driver.driver_number d =? n) sorted = Z.of_nat k ->
  navigate drivers n
  = {| previous := match k with O => None | S i => sorted !! i end;
       next := sorted !! S k |}.
Proof.
  intros sorted E. unfold navigate. fold sorted. rewrite E. f_equal.
  - destruct k as [|i]; [reflexivity|].
    replace (0 <? Z.of_nat (S i)) with true by (symmetry; apply Z.ltb_lt; lia).
    unfold at_index.
    replace (Z.of_nat (S i) - 1 <? 0) with false
      by (symmetry; apply Z.ltb_ge; lia).
    f_equal. lia.
  - destruct (Z.ltb_spec (Z.of_nat k) (Z.of_nat (length sorted) - 1)) as [Hlt|Hge].
    + unfold at_index.
      replace (Z.of_nat k + 1 <? 0) with false
        by (symmetry; apply Z.ltb_ge; lia).
      f_equal. lia.
    + symmetry. apply lookup_ge_None. lia.
Qed.

Lemma navigate_absent (drivers : list F1Driver) (n : Z) :
  (forall d, d ∈ drivers -> F1Driver.driver_number d <> n) ->
  navigate drivers n
  = {| previous := None;
       next := head (sort (fun a b => F1Driver.driver_number a
                                      - F1Driver.driver_number b) drivers) |}.
Proof.
  intros Habs. apply navigate_not_found.
  set (sorted := sort _ drivers).
  destruct (findIndex_from_spec (fun d => F1Driver.driver_number d =? n) sorted 0)
    as [[E _]|(k & x & _ & Hk & Hx & _)]; [exact E|exfalso].
  apply Z.eqb_eq in Hx. apply (Habs x); [|exact Hx].
  assert (Hperm : Permutation sorted drivers) by apply sort_Permutation.
  rewrite <- Hperm. eapply list_elem_of_lookup_2; eassumption.
Qed.

(** C10: on an empty drivers collection navigation yields no previous and
    no next driver, whatever the requested driver number, and so does
    [getDriverNavigation] when the fetch succeeds with no driver.  Among the
    collections that lack the requested number, the empty one is the only
    one for which [next] is null. *)
Theorem navigate_empty (driverNumber : Z) :
  navigate [] driverNumber = {| previous := None; next := None |} /\
  (forall (Any : Type) (api : Remote Any),
     get_drivers api 9693 = Resolved [] ->
     getDriverNavigation api driverNumber
     = Resolved {| previous := None; next := None |}) /\
  (forall drivers,
     (forall d, d ∈ drivers -> F1Driver.driver_number d <> driverNumber) ->
     (next (navigate drivers driverNumber) = None <-> drivers = [])).
Proof.
  split; [reflexivity|]. split.
  - intros Any api Hget. now rewrite getDriverNavigation_outcome, Hget.
  - intros drivers Habs. rewrite (navigate_absent drivers driverNumber Habs).
    cbn [next]. split.
    + intros Hhead. apply head_None in Hhead.
      apply length_zero_iff_nil. rewrite <- (sort_length
        (fun a b => F1Driver.driver_number a - F1Driver.driver_number b)).
      now rewrite Hhead.
    + now intros ->.
Qed.

(** C3: navigation sorts the drivers by ascending [driver_number] and, with
    [currentIndex] the position of the requested number in that order (-1
    when there is none), returns as [previous] the element at
    [currentIndex - 1] when [currentIndex > 0], else null, and as [next] the
    element at [currentIndex + 1] when [currentIndex] is before the last
    position, else null.  When the number is absent, [previous] is null and
    [next] is the first element of the sorted list.  When it is present, it
    is located at its first position [index]: drivers before it have smaller
    numbers, drivers after it have numbers at least as large, [previous] and
    [next] are its neighbours in that order, [previous] is null exactly when
    the number is the minimum, and [next] is null exactly at the last
    position, that is when the number is the maximum and one driver carries
    it: with unique driver numbers, exactly at the maximum. *)
Theorem navigate_adjacent (drivers : list F1Driver) (driverNumber : Z) :
  let num := F1Driver.driver_number in
  let sorted := sort (fun a b => num a - num b) drivers in
  let currentIndex := findIndex (fun d => num d =? driverNumber) sorted in
  let nav := navigate drivers driverNumber in
  Permutation sorted drivers /\
  StronglySorted (fun a b => num a <= num b) sorted /\
  (currentIndex = -1 \/ 0 <= currentIndex < Z.of_nat (length sorted)) /\
  previous nav
  = (if 0 <? currentIndex then sorted !! Z.to_nat (currentIndex - 1) else None) /\
  next nav
  = (if currentIndex <? Z.of_nat (length sorted) - 1
     then sorted !! Z.to_nat (currentIndex + 1) else None) /\
  ((forall d, d ∈ drivers -> num d <> driverNumber) ->
   previous nav = None /\ next nav = head sorted) /\
  ((exists d, d ∈ drivers /\ num d = driverNumber) ->
   exists (index : nat) (current : F1Driver),
     sorted !! index = Some current /\ num current = driverNumber /\
     (forall j dj, (j < index)%nat -> sorted !! j = Some dj ->
                   num dj < driverNumber) /\
     (forall j dj, (index < j)%nat -> sorted !! j = Some dj ->
                   driverNumber <= num dj) /\
     previous nav = match index with O => None | S i => sorted !! i end /\
     next nav = sorted !! S index /\
     (previous nav = None <-> forall d, d ∈ drivers -> driverNumber <= num d) /\
     (next nav = None <-> S index = length sorted) /\
     (next nav = None <->
      (forall d, d ∈ drivers -> num d <= driverNumber) /\
      length (List.filter (fun d => num d =? driverNumber) drivers) = 1%nat) /\
     (NoDup (map num drivers) ->
      (next nav = None <-> forall d, d ∈ drivers -> num d <= driverNumber))).
Proof.
  intros num sorted currentIndex nav.
  assert (Hperm : Permutation sorted drivers) by apply sort_Permutation.
  assert (Hsorted : StronglySorted (fun a b => num a <= num b) sorted)
    by apply sort_byNumber_sorted.
  split; [exact Hperm|]. split; [exact Hsorted|].
  pose proof (findIndex_from_spec (fun d => num d =? driverNumber) sorted 0)
    as Hspec.
  assert (Hrange : currentIndex = -1
                   \/ 0 <= currentIndex < Z.of_nat (length sorted)).
  { destruct Hspec as [[E _]|(k & x & E & Hk & _)]; [left; exact E|right].
    apply lookup_lt_Some in Hk. unfold currentIndex, findIndex. lia. }
  split; [exact Hrange|].
  split.
  { change (previous nav)
      with (if 0 <? currentIndex then at_index sorted (currentIndex - 1)
            else None).
    destruct (Z.ltb_spec 0 currentIndex) as [Hpos|_]; [|reflexivity].
    unfold at_index.
    now replace (currentIndex - 1 <? 0) with false
      by (symmetry; apply Z.ltb_ge; lia). }
  split.
  { change (next nav)
      with (if currentIndex <? Z.of_nat (length sorted) - 1
            then at_index sorted (currentIndex + 1) else None).
    destruct (currentIndex <? Z.of_nat (length sorted) - 1); [|reflexivity].
    unfold at_index.
    now replace (currentIndex + 1 <? 0) with false
      by (symmetry; apply Z.ltb_ge; lia). }
  split.
  - (* absent *)
    intros Habs. unfold nav.
    rewrite (navigate_absent drivers driverNumber Habs). split; reflexivity.
  - (* present *)
    intros (d & Hd & Hnum).
    destruct Hspec as [[_ F]|(k & x & E & Hk & Hx & Hfirst)].
    + exfalso. rewrite Forall_forall in F.
      assert (Hin : d ∈ sorted) by (rewrite Hperm; exact Hd).
      specialize (F d Hin). cbv beta in F. apply Z.eqb_neq in F. auto.
    + apply Z.eqb_eq in Hx. rewrite Z.add_0_l in E.
      assert (Hbefore : forall j dj, (j < k)%nat -> sorted !! j = Some dj ->
                                     num dj < driverNumber).
      { intros j dj Hj Hdj.
        pose proof (StronglySorted_lookup _ _ _ _ _ _ Hsorted Hj Hdj Hk) as Hle.
        pose proof (Hfirst j dj Hj Hdj) as Hne. cbv beta in *.
        apply Z.eqb_neq in Hne. lia. }
      assert (Hafter : forall j dj, (k < j)%nat -> sorted !! j = Some dj ->
                                    driverNumber <= num dj).
      { intros j dj Hj Hdj.
        pose proof (StronglySorted_lookup _ _ _ _ _ _ Hsorted Hj Hk Hdj) as Hle.
        cbv beta in *. lia. }
      assert (Hnav : nav = {| previous := match k with O => None | S i => sorted !! i end;
                              next := sorted !! S k |})
        by (apply navigate_found; exact E).
      assert (Hklt : (k < length sorted)%nat) by (eapply lookup_lt_Some; eassumption).
      assert (Hmax_of_last :
                sorted !! S k = None ->
                forall d', d' ∈ drivers -> num d' <= driverNumber).
      { intros Hnext d' Hd'. apply lookup_ge_None in Hnext.
        assert (Hin : d' ∈ sorted) by (rewrite Hperm; exact Hd').
        apply list_elem_of_lookup in Hin as [j Hj].
        pose proof (lookup_lt_Some _ _ _ Hj) as Hjlt.
        destruct (Nat.eq_dec j k) as [->|Hjk].
        - replace d' with x by congruence. lia.
        - assert (num d' < driverNumber)
            by (apply (Hbefore j d'); [lia|assumption]).
          lia. }
      assert (Hno_next :
                (forall d', d' ∈ drivers -> num d' <= driverNumber) ->
                (forall d', sorted !! S k = Some d' -> num d' <> driverNumber) ->
                sorted !! S k = None).
      { intros Hmax Hdiff.
        destruct (sorted !! S k) as [d'|] eqn:Hd'; [exfalso|reflexivity].
        apply (Hdiff d' eq_refl).
        assert (driverNumber <= num d')
          by (apply (Hafter (S k) d'); [lia|assumption]).
        assert (num d' <= driverNumber).
        { apply Hmax. rewrite <- Hperm.
          eapply list_elem_of_lookup_2; eassumption. }
        lia. }
      assert (Hcount :
                length (List.filter (fun d => num d =? driverNumber) drivers)
                = S (length (List.filter (fun d => num d =? driverNumber)
                                         (drop (S k) sorted)))).
      { rewrite <- (filter_length_Permutation _ _ _ Hperm).
        rewrite <- (take_drop_middle sorted k x Hk) at 1.
        rewrite List.filter_app. cbn [List.filter].
        rewrite (proj2 (Z.eqb_eq _ _) Hx).
        rewrite filter_nothing; [reflexivity|].
        intros y [j [Hj Hjk]%lookup_take_Some]%list_elem_of_lookup.
        exact (Hfirst j y Hjk Hj). }
      exists k, x. rewrite Hnav. cbn [previous next].
      split; [exact Hk|]. split; [exact Hx|].
      split; [exact Hbefore|]. split; [exact Hafter|].
      split; [reflexivity|]. split; [reflexivity|].
      split; [split|].
      { (* previous = None -> minimum *)
        intros Hprev d' Hd'.
        destruct k as [|i].
        - assert (Hin : d' ∈ sorted) by (rewrite Hperm; exact Hd').
          apply list_elem_of_lookup in Hin as [j Hj].
          destruct j as [|j].
          + cbn in Hj, Hk. replace d' with x by congruence. lia.
          + apply (Hafter (S j) d'); [lia|assumption].
        - exfalso. apply lookup_ge_None in Hprev. lia. }
      { (* minimum -> previous = None *)
        intros Hmin. destruct k as [|i]; [reflexivity|exfalso].
        destruct (lookup_lt_is_Some_2 sorted i) as [dj Hdj]; [lia|].
        assert (num dj < driverNumber) by (apply (Hbefore i dj); [lia|assumption]).
        assert (driverNumber <= num dj).
        { apply Hmin. rewrite <- Hperm. eapply list_elem_of_lookup_2; eassumption. }
        lia. }
      split; [split|].
      { intros Hnext. apply lookup_ge_None in Hnext. lia. }
      { intros Hlast. apply lookup_ge_None. lia. }
      split; [split|].
      { (* next = None -> maximum, carried once *)
        intros Hnext. split; [now apply Hmax_of_last|].
        rewrite Hcount. apply lookup_ge_None in Hnext.
        now rewrite drop_ge by lia. }
      { (* maximum, carried once -> next = None *)
        intros [Hmax Hone]. apply Hno_next; [exact Hmax|].
        intros d' Hd' Hsame.
        rewrite Hcount in Hone. injection Hone as Hone.
        apply length_zero_iff_nil in Hone.
        assert (Hhd : drop (S k) sorted !! 0%nat = Some d')
          by (rewrite lookup_drop, Nat.add_0_r; exact Hd').
        destruct (drop (S k) sorted) as [|y rest]; [discriminate|].
        cbn in Hhd. injection Hhd as ->. cbn [List.filter] in Hone.
        rewrite (proj2 (Z.eqb_eq _ _) Hsame) in Hone. discriminate. }
      intros Hnodup. split.
      { intros Hnext. now apply Hmax_of_last. }
      { (* unique numbers: maximum -> next = None *)
        intros Hmax. apply Hno_next; [exact Hmax|].
        intros d' Hd' Hsame.
        assert (Hnd : NoDup (map num sorted)) by (rewrite Hperm; assumption).
        assert (H1 : map num sorted !! k = Some driverNumber).
        { rewrite list_lookup_fmap, Hk. cbn. congruence. }
        assert (H2 : map num sorted !! S k = Some driverNumber).
        { rewrite list_lookup_fmap, Hd'. cbn. congruence. }
        pose proof (NoDup_lookup _ _ _ _ Hnd H1 H2). lia. }
Qed.

(* ===================================================================== *)
(** ** Field Normalizer *)
(* ===================================================================== *)

Lemma countryMap_nonempty (k v : string) :
  countryMap !! k = Some v -> v <> EmptyString.
Proof.
  unfold countryMap. intros H%elem_of_list_to_map_2.
  repeat (apply elem_of_cons in H as [H|H]; [injection H as _ ->; discriminate|]).
  inversion H.
Qed.

Lemma or_else_Some_nonempty (s d : string) :
  s <> EmptyString -> or_else (Some s) d = s.
Proof.
  intros Hs. cbn. destruct (String.eqb_spec s EmptyString); [contradiction|reflexivity].
Qed.

Lemma or_else_falsy (o : option string) (d : string) :
  truthy o = false -> or_else o d = d.
Proof.
  destruct o as [s|]; cbn; [|reflexivity].
  destruct (String.eqb s EmptyString); [reflexivity|discriminate].
Qed.

Lemma or_else_truthy (o : option string) (d : string) :
  truthy o = true -> o = Some (or_else o d) /\ or_else o d <> EmptyString.
Proof.
  destruct o as [s|]; cbn; [|discriminate].
  destruct (String.eqb_spec s EmptyString); [discriminate|]. intros _. now split.
Qed.

Lemma split_nonempty (sep : ascii) (s : string) : split sep s <> [].
Proof.
  destruct s as [|c s]; cbn; [discriminate|].
  destruct (Ascii.eqb c sep); [discriminate|].
  destruct (split sep s); discriminate.
Qed.

Lemma pop_split (sep : ascii) (s : string) :
  pop (split sep s) = Some (List.last (split sep s) EmptyString).
Proof.
  pose proof (split_nonempty sep s) as Hne. unfold pop.
  induction (split sep s) as [|t ts IH]; [contradiction|].
  destruct ts as [|t' ts]; [reflexivity|].
  rewrite last_cons_cons. cbn [List.last]. apply IH. discriminate.
Qed.

(** The fallback is the table entry of the upper-cased last token of the
    name, or ["INT"]. *)
Lemma getCountryCodeFallback_eq (driverName : string) :
  getCountryCodeFallback driverName
  = match countryMap !! surname driverName with
    | Some code => code
    | None => "INT"
    end.
Proof.
  unfold getCountryCodeFallback, surname. rewrite pop_split.
  cbn [fmap option_fmap option_map].
  set (u := toUpperCase _).
  assert (E : or_else (Some u) EmptyString = u).
  { cbn. destruct (String.eqb_spec u EmptyString); congruence. }
  rewrite E. destruct (countryMap !! u) as [code|] eqn:Hc; [|reflexivity].
  apply or_else_Some_nonempty. eapply countryMap_nonempty; eassumption.
Qed.

Lemma getCountryCodeFallback_nonempty (driverName : string) :
  getCountryCodeFallback driverName <> EmptyString.
Proof.
  rewrite getCountryCodeFallback_eq.
  destruct (countryMap !! _) as [code|] eqn:Hc; [|discriminate].
  eapply countryMap_nonempty; eassumption.
Qed.

Lemma normalize_country_code (d : F1Driver) :
  exists code, F1Driver.country_code (normalize d) = Some code /\ code <> EmptyString.
Proof.
  eexists. split; [reflexivity|].
  destruct (truthy (F1Driver.country_code d)) eqn:Ht.
  - now apply or_else_truthy.
  - rewrite or_else_falsy by assumption. apply getCountryCodeFallback_nonempty.
Qed.

Lemma normalize_country_code_eq (d : F1Driver) :
  F1Driver.country_code (normalize d)
  = (if truthy (F1Driver.country_code d) then F1Driver.country_code d
     else Some match countryMap !! surname (F1Driver.full_name d) with
               | Some code => code
               | None => "INT"
               end).
Proof.
  cbn [normalize F1Driver.with_country_code F1Driver.country_code].
  destruct (truthy (F1Driver.country_code d)) eqn:Ht.
  - symmetry. now apply or_else_truthy.
  - rewrite or_else_falsy by assumption. now rewrite getCountryCodeFallback_eq.
Qed.

(** C8: normalization is idempotent; it replaces a null or empty
    [country_code] by the fallback of the upper-cased last token of
    [full_name] (the table entry, or ["INT"]), keeps a non-empty one, and
    leaves every other field as it was. *)
Theorem normalize_idempotent (d : F1Driver) :
  normalize (normalize d) = normalize d /\
  F1Driver.country_code (normalize d)
  = (if truthy (F1Driver.country_code d) then F1Driver.country_code d
     else Some match countryMap !! surname (F1Driver.full_name d) with
               | Some code => code
               | None => "INT"
               end) /\
  F1Driver.broadcast_name (normalize d) = F1Driver.broadcast_name d /\
  F1Driver.driver_number (normalize d) = F1Driver.driver_number d /\
  F1Driver.first_name (normalize d) = F1Driver.first_name d /\
  F1Driver.full_name (normalize d) = F1Driver.full_name d /\
  F1Driver.headshot_url (normalize d) = F1Driver.headshot_url d /\
  F1Driver.last_name (normalize d) = F1Driver.last_name d /\
  F1Driver.meeting_key (normalize d) = F1Driver.meeting_key d /\
  F1Driver.name_acronym (normalize d) = F1Driver.name_acronym d /\
  F1Driver.session_key (normalize d) = F1Driver.session_key d /\
  F1Driver.team_colour (normalize d) = F1Driver.team_colour d /\
  F1Driver.team_name (normalize d) = F1Driver.team_name d.
Proof.
  split; [|split; [|repeat split]].
  - destruct (normalize_country_code d) as (code & Hcode & Hne).
    unfold normalize at 1. rewrite Hcode, (or_else_Some_nonempty code _ Hne).
    unfold normalize in *. cbn in Hcode. injection Hcode as <-.
    reflexivity.
  - apply normalize_country_code_eq.
Qed.

(** C9: every driver of a successful [fetchDrivers] carries a non-empty
    [country_code]; the result is the fetched records normalized, and a
    record whose own code is null or empty receives the non-empty table
    entry of its surname, or ["INT"] when the table has none. *)
Theorem fetchDrivers_country_code {Any : Type} (api : Remote Any)
  (drivers : list F1Driver) :
  fetchDrivers api = Resolved drivers ->
  (forall d, d ∈ drivers ->
     exists code, F1Driver.country_code d = Some code /\ code <> EmptyString) /\
  (exists raw, get_drivers api 9693 = Resolved raw /\ drivers = map normalize raw) /\
  (forall r, truthy (F1Driver.country_code r) = false ->
     let key := surname (F1Driver.full_name r) in
     (exists code, countryMap !! key = Some code /\ code <> EmptyString /\
                   F1Driver.country_code (normalize r) = Some code)
     \/ (countryMap !! key = None /\
         F1Driver.country_code (normalize r) = Some "INT")).
Proof.
  intros H. unfold fetchDrivers, getRecentSessionKey in H.
  cbn [mbind Promise_bind bind] in H.
  destruct (get_drivers api 9693) as [raw|e] eqn:Hraw; cbn in H; [|discriminate H].
  injection H as <-. split; [|split].
  - intros d (r & -> & _)%list_elem_of_fmap. apply normalize_country_code.
  - exists raw. now split.
  - intros r Ht key.
    pose proof (normalize_country_code_eq r) as Hcc. rewrite Ht in Hcc.
    fold key in Hcc. rewrite Hcc.
    destruct (countryMap !! key) as [code|] eqn:Hc.
    + left. exists code. repeat split. eapply countryMap_nonempty; eassumption.
    + right. now split.
Qed.

(* ===================================================================== *)
(** ** Remote Data Gateway *)
(* ===================================================================== *)

Lemma slice_prefix {A : Type} (l : list A) (n : Z) :
  0 <= n -> slice l 0 n = take (Z.to_nat n) l.
Proof.
  intros Hn. unfold slice. change (0 <? 0) with false. cbv iota.
  replace (n <? 0) with false by (symmetry; apply Z.ltb_ge; lia).
  rewrite (Z.min_l 0) by lia. rewrite Z.sub_0_r.
  change (drop (Z.to_nat 0) l) with l.
  destruct (Z.le_ge_cases n (Z.of_nat (length l))) as [Hle|Hge].
  - now rewrite Z.min_l by lia.
  - rewrite Z.min_r by lia. rewrite Nat2Z.id.
    rewrite (take_ge l (length l)) by lia.
    rewrite (take_ge l (Z.to_nat n)) by lia. reflexivity.
Qed.

Lemma slice_from_end {A : Type} (l : list A) (n : Z) :
  n < 0 -> slice l 0 n = take (length l - Z.to_nat (- n)) l.
Proof.
  intros Hn. unfold slice. change (0 <? 0) with false. cbv iota.
  replace (n <? 0) with true by (symmetry; apply Z.ltb_lt; lia).
  rewrite (Z.min_l 0) by lia. rewrite Z.sub_0_r.
  change (drop (Z.to_nat 0) l) with l. f_equal. lia.
Qed.

Lemma StronglySorted_unique {A : Type} (R : A -> A -> Prop) (l1 l2 : list A) :
  (forall a b, R a b -> R b a -> a = b) ->
  StronglySorted R l1 -> StronglySorted R l2 -> Permutation l1 l2 -> l1 = l2.
Proof.
  intros Hanti H1. revert l2.
  induction H1 as [|a l1 H1 IH Ha]; intros l2 H2 Hperm.
  - apply Permutation_nil in Hperm. congruence.
  - destruct H2 as [|b l2 H2 Hb].
    + symmetry in Hperm. apply Permutation_nil in Hperm. discriminate.
    + assert (a = b) as <-.
      { assert (Hin_a : a ∈ b :: l2) by (rewrite <- Hperm; left).
        assert (Hin_b : b ∈ a :: l1) by (rewrite Hperm; left).
        apply elem_of_cons in Hin_a as [?|Hin_a]; [assumption|].
        apply elem_of_cons in Hin_b as [?|Hin_b]; [congruence|].
        rewrite Forall_forall in Ha, Hb. apply Hanti; auto. }
      f_equal. apply IH; [assumption|].
      eapply Permutation_cons_inv; eassumption.
Qed.

Lemma sort_by_lap_number_desc (laps : list F1Lap) :
  StronglySorted (fun a b => F1Lap.lap_number b <= F1Lap.lap_number a)
    (sort (fun a b => F1Lap.lap_number b - F1Lap.lap_number a) laps).
Proof.
  eapply StronglySorted_weaken.
  2: { apply sort_StronglySorted.
       apply (Consistent_on F1Lap.lap_number (fun a b => b - a)).
       apply Consistent_rev_minus. }
  cbv beta. intros; lia.
Qed.

Lemma StronglySorted_map {A B : Type} (f : A -> B) (R : B -> B -> Prop)
  (l : list A) :
  StronglySorted (fun a b => R (f a) (f b)) l -> StronglySorted R (map f l).
Proof.
  induction 1 as [|a l Hs IH Ha]; cbn [map]; constructor; [assumption|].
  rewrite Forall_fmap. exact Ha.
Qed.

(** Runs a gateway function up to the request [H] says is rejected. *)
Ltac request_fails H :=
  unfold getRecentSessionKey; cbn [mbind Promise_bind bind]; rewrite H;
  cbn [mbind Promise_bind bind try_catch].

(** C1, as the code has it: on a failed request the laps, sessions,
    meetings, positions and session-result listings resolve to the empty
    sequence, whereas [fetchDrivers] and [fetchTeams] reject with their own
    error. *)
Theorem listings_on_failure {Any : Type} (getTime : string -> option Z)
  (api : Remote Any) (e : Failure) :
  (forall driverNumber limit,
     get_laps api driverNumber 9693 = Rejected e ->
     fetchDriverLaps api driverNumber limit = Resolved []) /\
  (forall limit,
     get_sessions api 2025 = Rejected e ->
     fetchRecentSessions getTime api limit = Resolved []) /\
  (forall year,
     get_meetings api (default 2025 year) = Rejected e ->
     fetchMeetings api year = Resolved []) /\
  (forall sessionKey,
     get_position api sessionKey = Rejected e ->
     fetchPositions api sessionKey = Resolved []) /\
  (forall sessionKey,
     get_session_result api
       match sessionKey with
       | Some k => if k =? 0 then 9693 else k
       | None => 9693
       end = Rejected e ->
     fetchSessionResults api sessionKey = Resolved []) /\
  (get_drivers api 9693 = Rejected e ->
   fetchDrivers api = Rejected (Thrown "Failed to fetch F1 drivers data") /\
   fetchTeams api = Rejected (Thrown "Failed to fetch F1 teams data")).
Proof.
  repeat split.
  - intros n limit H. unfold fetchDriverLaps. now request_fails H.
  - intros limit H. unfold fetchRecentSessions. now request_fails H.
  - intros year H. unfold fetchMeetings. now request_fails H.
  - intros k H. unfold fetchPositions. now request_fails H.
  - intros k H. unfold fetchSessionResults.
    destruct k as [k|]; [destruct (k =? 0)|]; now request_fails H.
  - unfold fetchDrivers. now request_fails H.
  - unfold fetchTeams, fetchDrivers. now request_fails H.
Qed.

(** C2, as the code has it: [fetchDriverById] never rejects.  When the
    request fails it resolves to null; when it succeeds it resolves to the
    first fetched (normalized) driver with the requested number, and to null
    exactly when no fetched driver has that number. *)
Theorem fetchDriverById_outcome {Any : Type} (api : Remote Any)
  (driverNumber : Z) :
  (exists result, fetchDriverById api driverNumber = Resolved result) /\
  (forall e, get_drivers api 9693 = Rejected e ->
             fetchDriverById api driverNumber = Resolved None) /\
  (forall raw, get_drivers api 9693 = Resolved raw ->
     fetchDriverById api driverNumber
     = Resolved (find (fun d => F1Driver.driver_number d =? driverNumber)
                      (map normalize raw)) /\
     (fetchDriverById api driverNumber = Resolved None <->
      forall d, d ∈ map normalize raw -> F1Driver.driver_number d <> driverNumber) /\
     (forall d, fetchDriverById api driverNumber = Resolved (Some d) ->
                d ∈ map normalize raw /\ F1Driver.driver_number d = driverNumber)).
Proof.
  assert (Hbody : fetchDriverById api driverNumber
          = match get_drivers api 9693 with
            | Resolved raw =>
                Resolved (find (fun d => F1Driver.driver_number d =? driverNumber)
                               (map normalize raw))
            | Rejected _ => Resolved None
            end).
  { unfold fetchDriverById. rewrite fetchDrivers_outcome.
    now destruct (get_drivers api 9693). }
  rewrite Hbody. split; [|split].
  - destruct (get_drivers api 9693); eauto.
  - intros e ->. reflexivity.
  - intros raw ->. split; [reflexivity|]. unfold find. split; [split|].
    + intros [= Hnone] d Hd Hnum.
      apply list_elem_of_In in Hd.
      pose proof (find_none _ _ Hnone d Hd) as Hf. cbv beta in Hf.
      apply Z.eqb_neq in Hf. contradiction.
    + intros Hall.
      destruct (List.find _ _) as [d|] eqn:Hfind; [exfalso|reflexivity].
      apply find_some in Hfind as [Hin Hnum].
      apply Z.eqb_eq in Hnum. apply (Hall d); [|assumption].
      now apply list_elem_of_In.
    + intros d [= Hfind]. apply find_some in Hfind as [Hin Hnum].
      split; [now apply list_elem_of_In|now apply Z.eqb_eq].
Qed.

(** C7: on a successful request [fetchDriverLaps] puts the fetched laps in
    descending [lap_number] order and returns the first [limit] of them,
    [limit] being 10 when omitted; twelve laps numbered 1 to 12 with limit
    10 give the laps 12, 11, ..., 3.  (A negative [limit], which no caller
    passes, makes [slice] count from the end instead.) *)
Theorem fetchDriverLaps_recent {Any : Type} (api : Remote Any)
  (driverNumber : Z) (limit : option Z) (laps : list F1Lap) :
  get_laps api driverNumber 9693 = Resolved laps ->
  let sorted := sort (fun a b => F1Lap.lap_number b - F1Lap.lap_number a) laps in
  let count := default 10 limit in
  Permutation sorted laps /\
  StronglySorted (fun a b => F1Lap.lap_number b <= F1Lap.lap_number a) sorted /\
  (0 <= count ->
   fetchDriverLaps api driverNumber limit
   = Resolved (take (Z.to_nat count) sorted)) /\
  (count < 0 ->
   fetchDriverLaps api driverNumber limit
   = Resolved (take (length sorted - Z.to_nat (- count)) sorted)) /\
  (Permutation (map F1Lap.lap_number laps) [1; 2; 3; 4; 5; 6; 7; 8; 9; 10; 11; 12] ->
   count = 10 ->
   exists result,
     fetchDriverLaps api driverNumber limit = Resolved result /\
     map F1Lap.lap_number result = [12; 11; 10; 9; 8; 7; 6; 5; 4; 3]).
Proof.
  intros Hget sorted count.
  assert (Hperm : Permutation sorted laps) by apply sort_Permutation.
  assert (Hsorted : StronglySorted
            (fun a b => F1Lap.lap_number b <= F1Lap.lap_number a) sorted)
    by apply sort_by_lap_number_desc.
  assert (Hres : fetchDriverLaps api driverNumber limit
                 = Resolved (slice sorted 0 count)).
  { unfold fetchDriverLaps, getRecentSessionKey.
    cbn [mbind Promise_bind bind]. rewrite Hget. reflexivity. }
  assert (Hfirst : 0 <= count ->
            fetchDriverLaps api driverNumber limit
            = Resolved (take (Z.to_nat count) sorted)).
  { intros Hcount. now rewrite Hres, slice_prefix. }
  split; [exact Hperm|]. split; [exact Hsorted|]. split; [exact Hfirst|].
  split.
  { intros Hcount. now rewrite Hres, slice_from_end. }
  intros Hnums Hten. eexists. split; [apply Hfirst; lia|].
  rewrite Hten. change (Z.to_nat 10) with 10%nat.
  change (map F1Lap.lap_number) with (fmap (M:=list) F1Lap.lap_number).
  rewrite fmap_take.
  assert (E : F1Lap.lap_number <$> sorted
              = [12; 11; 10; 9; 8; 7; 6; 5; 4; 3; 2; 1]).
  { apply (StronglySorted_unique (fun a b : Z => b <= a)).
    - intros; lia.
    - apply StronglySorted_map. exact Hsorted.
    - repeat (constructor; [|repeat constructor; lia]). constructor.
    - change (fmap (M:=list) F1Lap.lap_number) with (map F1Lap.lap_number).
      rewrite Hperm, Hnums.
      apply (Permutation_rev [1; 2; 3; 4; 5; 6; 7; 8; 9; 10; 11; 12]). }
  rewrite E. reflexivity.
Qed.

(* ===================================================================== *)
(** ** Aggregator *)
(* ===================================================================== *)

Lemma Map_has_false {V : Type} (m : JsMap V) (k : string) :
  Map_has m k = false <-> k ∉ map fst m.
Proof.
  induction m as [|[k' v] m IH]; cbn.
  - split; [intros _ H; inversion H|reflexivity].
  - rewrite not_elem_of_cons, orb_false_iff, IH, String.eqb_neq.
    split; intros [H1 H2]; split; auto.
Qed.

Lemma Map_set_fresh {V : Type} (m : JsMap V) (k : string) (v : V) :
  Map_has m k = false -> Map_set m k v = m ++ [(k, v)].
Proof.
  induction m as [|[k' v'] m IH]; cbn; [reflexivity|].
  intros [H1 H2]%orb_false_iff. rewrite H1, IH by assumption. reflexivity.
Qed.

Lemma Map_get_split {V : Type} (m : JsMap V) (k : string) :
  Map_has m k = true ->
  exists m1 v m2,
    m = m1 ++ (k, v) :: m2 /\ (k ∉ map fst m1) /\ Map_get m k = Some v /\
    forall v', Map_set m k v' = m1 ++ (k, v') :: m2.
Proof.
  induction m as [|[k' v] m IH]; cbn; [discriminate|].
  destruct (String.eqb_spec k' k) as [->|Hne].
  - intros _. exists [], v, m. repeat split. intros H; inversion H.
  - cbn. intros (m1 & w & m2 & -> & Hnotin & Hget & Hset)%IH.
    exists ((k', v) :: m1), w, m2. repeat split; [|assumption|].
    + cbn. rewrite not_elem_of_cons. split; [congruence|assumption].
    + intros v'. now rewrite Hset.
Qed.

Lemma Map_has_app_last {V : Type} (m : JsMap V) (k : string) (v : V) :
  Map_has (m ++ [(k, v)]) k = true.
Proof.
  unfold Map_has. rewrite existsb_app. cbn. rewrite String.eqb_refl.
  now rewrite orb_true_r.
Qed.

(** One step of the fold: the team of the driver's key is created when
    missing, and then receives the driver. *)
Lemma aggregate_step_split (m : JsMap F1Team) (d : F1Driver) :
  let k := team_key d in
  let seeded :=
    if Map_has m k then m
    else m ++ [(k, {| F1Team.team_name := k;
                      F1Team.team_colour := F1Driver.team_colour d;
                      F1Team.drivers := [];
                      F1Team.country_codes := [] |})] in
  exists m1 t m2 t',
    seeded = m1 ++ (k, t) :: m2 /\ (k ∉ map fst m1) /\
    aggregate_step m d = m1 ++ (k, t') :: m2 /\
    F1Team.team_name t' = F1Team.team_name t /\
    F1Team.drivers t' = F1Team.drivers t ++ [d].
Proof.
  intros k seeded.
  assert (Hhas : Map_has seeded k = true).
  { unfold seeded. destruct (Map_has m k) eqn:E; [exact E|apply Map_has_app_last]. }
  assert (Hstep : aggregate_step m d
          = match Map_get seeded k with
            | Some team =>
                let team := F1Team.push_driver team d in
                let countryCode := or_else (F1Driver.country_code d) "INT" in
                Map_set seeded k
                  (if negb (arr_includes (F1Team.country_codes team) countryCode)
                   then F1Team.push_country_code team countryCode else team)
            | None => seeded
            end).
  { unfold aggregate_step, seeded. fold (team_key d). fold k.
    destruct (Map_has m k) eqn:E; cbn [negb]; [reflexivity|].
    now rewrite Map_set_fresh by exact E. }
  destruct (Map_get_split seeded k Hhas) as (m1 & t & m2 & Hm & Hnotin & Hget & Hset).
  rewrite Hget in Hstep. cbv zeta in Hstep. rewrite Hset in Hstep.
  exists m1, t, m2. eexists.
  split; [exact Hm|]. split; [exact Hnotin|]. split; [exact Hstep|].
  split; destruct (negb _); reflexivity.
Qed.

Lemma filter_team_app (k : string) (p : list F1Driver) (d : F1Driver) :
  List.filter (fun d' => String.eqb (team_key d') k) (p ++ [d])
  = List.filter (fun d' => String.eqb (team_key d') k) p
    ++ (if String.eqb (team_key d) k then [d] else []).
Proof. rewrite List.filter_app. reflexivity. Qed.

Lemma aggregated_step (p : list F1Driver) (m : JsMap F1Team) (d : F1Driver) :
  aggregated p m -> aggregated (p ++ [d]) (aggregate_step m d).
Proof.
  intros Hagg.
  destruct (aggregate_step_split m d)
    as (m1 & t & m2 & t' & Hseed & Hnotin & -> & Hname & Hdrivers).
  set (k := team_key d) in *.
  (* the map with the team of [d] seeded still describes [p] *)
  assert (Hinv : aggregated p (m1 ++ (k, t) :: m2)).
  { rewrite <- Hseed. destruct (Map_has m k) eqn:Hhas; [exact Hagg|].
    destruct Hagg as (Hnodup & Hteams & Hkeys & Hperm).
    apply Map_has_false in Hhas.
    assert (Hnone : List.filter (fun d' => String.eqb (team_key d') k) p = []).
    { apply filter_nothing. intros d' Hd'. apply String.eqb_neq. intros E.
      apply Hhas. rewrite <- E. now apply Hkeys. }
    repeat split.
    - rewrite map_app. cbn [map fst]. apply NoDup_app. repeat split.
      + exact Hnodup.
      + intros x Hx [->|H]%elem_of_cons; [contradiction|inversion H].
      + apply NoDup_singleton.
    - apply Forall_app. split; [exact Hteams|].
      constructor; [|constructor]. cbn. now rewrite Hnone.
    - intros d' Hd'. rewrite map_app. apply elem_of_app. left. now apply Hkeys.
    - rewrite map_app, concat_app. cbn. now rewrite app_nil_r. }
  clear Hseed. destruct Hinv as (Hnodup & Hteams & Hkeys & Hperm).
  rewrite map_app in Hnodup, Hkeys. cbn [map fst] in Hnodup, Hkeys.
  apply NoDup_app in Hnodup as (Hnd1 & Hdisj & Hnd2).
  apply NoDup_cons in Hnd2 as [Hk2 Hnd2].
  apply Forall_app in Hteams as [Ht1 Ht2].
  apply Forall_cons in Ht2 as [[Htn Htd] Ht2]. cbn [fst snd] in Htn, Htd.
  rewrite map_app, concat_app in Hperm. cbn [map concat snd] in Hperm.
  assert (Hother : forall ms,
             Forall (fun entry =>
                       F1Team.team_name (snd entry) = fst entry /\
                       F1Team.drivers (snd entry)
                       = List.filter (fun d' => String.eqb (team_key d') (fst entry)) p) ms ->
             k ∉ map fst ms ->
             Forall (fun entry =>
                       F1Team.team_name (snd entry) = fst entry /\
                       F1Team.drivers (snd entry)
                       = List.filter (fun d' => String.eqb (team_key d') (fst entry))
                                     (p ++ [d])) ms).
  { induction 1 as [|[k0 t0] ms [H1 H2] Hms IH]; intros Hk; [constructor|].
    cbn [map fst] in Hk. apply not_elem_of_cons in Hk as [Hne Hk].
    constructor; [|now apply IH]. cbn [fst snd] in *.
    split; [exact H1|]. rewrite filter_team_app, <- H2. fold k.
    destruct (String.eqb_spec k k0); [contradiction|]. now rewrite app_nil_r. }
  repeat split.
  - rewrite map_app. cbn [map fst]. apply NoDup_app. repeat split; try assumption.
    now apply NoDup_cons.
  - apply Forall_app. split; [now apply Hother|].
    constructor; [|now apply Hother]. cbn [fst snd]. split; [congruence|].
    rewrite Hdrivers, Htd, filter_team_app. fold k. now rewrite String.eqb_refl.
  - intros d' [Hd'|Hd']%elem_of_app.
    + rewrite map_app. cbn [map fst]. now apply Hkeys.
    + apply list_elem_of_singleton in Hd' as ->. fold k.
      rewrite map_app. cbn [map fst]. apply elem_of_app. right. left.
  - rewrite map_app, concat_app. cbn [map concat snd]. rewrite Hdrivers.
    rewrite <- Hperm. rewrite <- !app_assoc.
    apply Permutation_app_head. apply Permutation_app_head.
    apply Permutation_app_comm.
Qed.

Lemma fold_left_aggregated (drivers : list F1Driver) :
  aggregated drivers (fold_left aggregate_step drivers []).
Proof.
  induction drivers as [|d p IH] using rev_ind.
  - repeat split; cbn; try constructor. intros d H. inversion H.
  - rewrite fold_left_app. cbn [fold_left]. now apply aggregated_step.
Qed.

(** C4: team aggregation drops no driver and duplicates none.  Each team
    lists, in input order, exactly the input drivers whose team key (the
    [team_name], or ["Unknown Team"] when absent) is the team's name, so its
    member count is the number of such drivers; team names are pairwise
    distinct; the member lists together are a rearrangement of the input and
    their lengths sum to the input length; no driver is a member of two
    different teams, and every input driver is a member of the team of its
    key. *)
Theorem aggregateTeams_partition (drivers : list F1Driver) :
  let teams := aggregateTeams drivers in
  (forall t, t ∈ teams ->
     F1Team.drivers t
     = List.filter (fun d => String.eqb (team_key d) (F1Team.team_name t)) drivers /\
     length (F1Team.drivers t)
     = length (List.filter
                 (fun d => String.eqb (team_key d) (F1Team.team_name t)) drivers)) /\
  NoDup (map F1Team.team_name teams) /\
  Permutation (concat (map F1Team.drivers teams)) drivers /\
  list_sum (map (fun t => length (F1Team.drivers t)) teams) = length drivers /\
  (forall i j t1 t2 d,
     teams !! i = Some t1 -> teams !! j = Some t2 -> i <> j ->
     d ∈ F1Team.drivers t1 -> d ∉ F1Team.drivers t2) /\
  (forall d, d ∈ drivers ->
     exists t, t ∈ teams /\ F1Team.team_name t = team_key d /\
               d ∈ F1Team.drivers t).
Proof.
  intros teams.
  destruct (fold_left_aggregated drivers) as (Hnodup & Hteams & Hkeys & Hperm).
  unfold teams, aggregateTeams, Map_values.
  set (m := fold_left aggregate_step drivers []) in *.
  rewrite Forall_forall in Hteams.
  assert (Hmember : forall t, t ∈ map snd m ->
            F1Team.drivers t
            = List.filter (fun d => String.eqb (team_key d) (F1Team.team_name t))
                          drivers).
  { intros t ([k t0] & -> & Hin)%list_elem_of_fmap.
    destruct (Hteams _ Hin) as [Hname Hdrv]. cbn [fst snd] in *.
    now rewrite Hname. }
  assert (Hnames : map F1Team.team_name (map snd m) = map fst m).
  { rewrite map_map. apply map_ext_in. intros e He.
    apply list_elem_of_In in He. now destruct (Hteams e He). }
  assert (Hkey_of : forall t d, t ∈ map snd m -> d ∈ F1Team.drivers t ->
                                team_key d = F1Team.team_name t).
  { intros t d Ht Hd. rewrite (Hmember t Ht) in Hd.
    apply list_elem_of_In, filter_In in Hd as [_ Hd]. now apply String.eqb_eq. }
  split; [|split; [|split; [|split; [|split]]]].
  - intros t Ht. rewrite <- (Hmember t Ht). now split.
  - now rewrite Hnames.
  - now rewrite map_map.
  - rewrite <- (Permutation_length Hperm), length_concat, !map_map. reflexivity.
  - intros i j t1 t2 d Hi Hj Hij Hd1 Hd2. apply Hij.
    assert (E : F1Team.team_name t1 = F1Team.team_name t2).
    { rewrite <- (Hkey_of t1 d), <- (Hkey_of t2 d); try assumption; try reflexivity;
        eapply list_elem_of_lookup_2; eassumption. }
    rewrite <- Hnames in Hnodup.
    eapply (NoDup_lookup _ i j (F1Team.team_name t1) Hnodup).
    + change (map F1Team.team_name) with (fmap (M:=list) F1Team.team_name).
      now rewrite list_lookup_fmap, Hi.
    + change (map F1Team.team_name) with (fmap (M:=list) F1Team.team_name).
      now rewrite list_lookup_fmap, Hj, E.
  - intros d Hd. specialize (Hkeys d Hd).
    apply list_elem_of_fmap in Hkeys as ([k t] & Hk & Hin). cbn [fst] in Hk.
    destruct (Hteams _ Hin) as [Hname Hdrv]. cbn [fst snd] in *.
    exists t. split; [|split].
    + apply list_elem_of_fmap. now exists (k, t).
    + congruence.
    + rewrite Hdrv. apply list_elem_of_In, filter_In. split.
      * now apply list_elem_of_In.
      * rewrite Hk. apply String.eqb_refl.
Qed.

(* ===================================================================== *)
(** ** Query Engine *)
(* ===================================================================== *)

Lemma filter_everything {A : Type} (f : A -> bool) (l : list A) :
  (forall x, f x = true) -> List.filter f l = l.
Proof.
  intros H. induction l as [|x l IH]; [reflexivity|].
  cbn [List.filter]. now rewrite H, IH.
Qed.

Lemma filter_split {A : Type} (f : A -> bool) (l pre : list A) (x : A)
  (rest : list A) :
  List.filter f l = pre ++ x :: rest ->
  exists l1 l2,
    l = l1 ++ x :: l2 /\ List.filter f l1 = pre /\ List.filter f l2 = rest.
Proof.
  revert pre. induction l as [|y l IH]; intros pre H; cbn [List.filter] in H.
  - destruct pre; discriminate.
  - destruct (f y) eqn:Hy.
    + destruct pre as [|p pre]; cbn in H; injection H as <- H.
      * exists [], l. repeat split. exact H.
      * destruct (IH pre H) as (l1 & l2 & -> & H1 & H2).
        exists (y :: l1), l2. cbn [List.filter]. rewrite Hy, H1. now repeat split.
    + destruct (IH pre H) as (l1 & l2 & -> & H1 & H2).
      exists (y :: l1), l2. cbn [List.filter]. rewrite Hy. now repeat split.
Qed.

Lemma includes_empty (s : string) : includes s EmptyString = true.
Proof. destruct s; reflexivity. Qed.

Section QueryFacts.

Variable localeCompare : string -> string -> Z.

Lemma matchesDriver_no_criteria (d : F1Driver) :
  matchesDriver EmptyString EmptyString EmptyString d = true.
Proof.
  unfold matchesDriver. cbn [toLowerCase truthy String.eqb negb orb].
  now rewrite includes_empty.
Qed.

(** C5: with no search text, no team filter, no country filter and the
    order "driver_number ascending", the query returns every input driver,
    none lost and none duplicated, by ascending [driver_number]. *)
Theorem filterAndSort_all_by_number (drivers : list F1Driver) :
  let result :=
    filterAndSort localeCompare drivers EmptyString EmptyString EmptyString
      {| SortConfig.option := opt_driver_number; SortConfig.order := asc |} in
  Permutation result drivers /\
  StronglySorted
    (fun a b => F1Driver.driver_number a <= F1Driver.driver_number b) result.
Proof.
  intros result. unfold result, filterAndSort.
  rewrite (filter_everything _ _ matchesDriver_no_criteria).
  split; [apply sort_Permutation|]. apply sort_byNumber_sorted.
Qed.

Hypothesis localeCompare_ok : Consistent localeCompare.

Lemma compareDrivers_Consistent (sortConfig : SortConfig) :
  Consistent (compareDrivers localeCompare sortConfig).
Proof.
  destruct sortConfig as [[] []].
  - exact (Consistent_on F1Driver.full_name _ localeCompare_ok).
  - exact (Consistent_opp _ (Consistent_on F1Driver.full_name _ localeCompare_ok)).
  - exact (Consistent_on (fun d => or_else (F1Driver.team_name d) EmptyString) _
                         localeCompare_ok).
  - exact (Consistent_opp _
             (Consistent_on (fun d => or_else (F1Driver.team_name d) EmptyString) _
                            localeCompare_ok)).
  - exact (Consistent_on F1Driver.driver_number _ Consistent_minus).
  - exact (Consistent_opp _ (Consistent_on F1Driver.driver_number _ Consistent_minus)).
  - exact (Consistent_on (fun d => or_else (F1Driver.country_code d) "ZZZ") _
                         localeCompare_ok).
  - exact (Consistent_opp _
             (Consistent_on (fun d => or_else (F1Driver.country_code d) "ZZZ") _
                            localeCompare_ok)).
Qed.

(** C6: the sort of the query is stable under every sort configuration.
    For any driver [a], the drivers that compare equal to [a] come out in
    the order in which they pass the filter; hence two passing drivers that
    compare equal keep their relative order, and so do, under the option
    "team", two drivers with the same [team_name]. *)
Theorem filterAndSort_stable (drivers : list F1Driver)
  (searchQuery selectedTeam selectedCountry : string) (sortConfig : SortConfig) :
  let passes := matchesDriver searchQuery selectedTeam selectedCountry in
  let cmp := compareDrivers localeCompare sortConfig in
  let result :=
    filterAndSort localeCompare drivers searchQuery selectedTeam selectedCountry
                  sortConfig in
  (forall a,
     List.filter (fun x => cmp a x =? 0) result
     = List.filter (fun x => cmp a x =? 0) (List.filter passes drivers)) /\
  (forall a b l1 l2 l3,
     drivers = l1 ++ a :: l2 ++ b :: l3 ->
     passes a = true -> passes b = true -> cmp a b = 0 ->
     exists r1 r2 r3, result = r1 ++ a :: r2 ++ b :: r3) /\
  (forall a b,
     SortConfig.option sortConfig = opt_team ->
     F1Driver.team_name a = F1Driver.team_name b -> cmp a b = 0).
Proof.
  intros passes cmp result.
  pose proof (compareDrivers_Consistent sortConfig) as Hcmp. fold cmp in Hcmp.
  assert (Hclass : forall a,
            List.filter (fun x => cmp a x =? 0) result
            = List.filter (fun x => cmp a x =? 0) (List.filter passes drivers)).
  { intros a. unfold result, filterAndSort. now apply sort_stable. }
  split; [exact Hclass|]. split.
  - intros a b l1 l2 l3 -> Ha Hb Hab.
    specialize (Hclass a).
    rewrite !List.filter_app in Hclass. cbn [List.filter] in Hclass.
    rewrite Ha in Hclass. rewrite !List.filter_app in Hclass.
    cbn [List.filter] in Hclass. rewrite Hb in Hclass.
    rewrite !List.filter_app in Hclass. cbn [List.filter] in Hclass.
    rewrite (cmp_refl cmp Hcmp a), Hab in Hclass. cbn [Z.eqb] in Hclass.
    apply filter_split in Hclass as (r1 & r' & -> & _ & Hrest).
    apply filter_split in Hrest as (r2 & r3 & -> & _ & _).
    now exists r1, r2, r3.
  - intros a b Hopt Hteam. unfold cmp, compareDrivers. rewrite Hopt, Hteam.
    rewrite (cmp_refl localeCompare localeCompare_ok).
    now destruct (SortConfig.order sortConfig).
Qed.

End QueryFacts.

(* ===================================================================== *)
(** ** The statements at work on sample data *)
(* ===================================================================== *)

Lemma compare_refl_string (a : string) : String.compare a a = Eq.
Proof.
  pose proof (String.compare_antisym a a) as H.
  destruct (String.compare a a); [reflexivity|discriminate..].
Qed.

Lemma codeCompare_Consistent : Consistent codeCompare.
Proof.
  unfold codeCompare. split.
  - intros a. now rewrite compare_refl_string.
  - intros a b. rewrite (String.compare_antisym a b).
    destruct (String.compare b a); cbn; lia.
  - intros a b. rewrite (String.compare_antisym a b).
    destruct (String.compare b a); cbn; lia.
  - intros a b c Hab Hbc.
    destruct (String.compare a b) eqn:Eab; [| |lia].
    { apply String.compare_eq_iff in Eab as ->. exact Hbc. }
    destruct (String.compare b c) eqn:Ebc; [| |lia].
    { apply String.compare_eq_iff in Ebc as <-. rewrite Eab. lia. }
    assert (E : String.compare a c = Lt).
    { apply String_as_OT.cmp_lt.
      eapply String_as_OT.lt_trans; apply String_as_OT.cmp_lt; eassumption. }
    rewrite E. lia.
  - intros a b c Hab Hbc.
    destruct (String.compare a b) eqn:Eab; [|lia..].
    apply String.compare_eq_iff in Eab as ->. exact Hbc.
Qed.

(** C1 fails for drivers and teams: with the service unreachable both
    operations reject instead of resolving to the empty sequence. *)
Lemma fetchDrivers_offline_rejects :
  get_drivers offline 9693 = Rejected RemoteUnavailable /\
  fetchDrivers offline = Rejected (Thrown "Failed to fetch F1 drivers data") /\
  fetchDrivers offline <> Resolved [] /\
  fetchTeams offline = Rejected (Thrown "Failed to fetch F1 teams data") /\
  fetchTeams offline <> Resolved [].
Proof. repeat split; discriminate. Qed.

(** The seven listings against the unreachable service. *)
Lemma listings_on_failure_offline :
  fetchDriverLaps offline 44 None = Resolved [] /\
  fetchRecentSessions utcTime offline None = Resolved [] /\
  fetchMeetings offline None = Resolved [] /\
  fetchPositions offline 9693 = Resolved [] /\
  fetchSessionResults offline None = Resolved [] /\
  fetchDrivers offline = Rejected (Thrown "Failed to fetch F1 drivers data") /\
  fetchTeams offline = Rejected (Thrown "Failed to fetch F1 teams data").
Proof.
  destruct (listings_on_failure utcTime offline RemoteUnavailable)
    as (Hlaps & Hsessions & Hmeetings & Hpositions & Hresults & Hdrivers).
  split; [apply Hlaps; reflexivity|].
  split; [apply Hsessions; reflexivity|].
  split; [apply Hmeetings; reflexivity|].
  split; [apply Hpositions; reflexivity|].
  split; [apply (Hresults None); reflexivity|].
  apply Hdrivers. reflexivity.
Defined.

(** C2 fails on propagation: with the service unreachable the lookup
    resolves to null and does not reject. *)
Lemma fetchDriverById_offline_null :
  get_drivers offline 9693 = Rejected RemoteUnavailable /\
  fetchDriverById offline 44 = Resolved None /\
  forall e, fetchDriverById offline 44 <> Rejected e.
Proof. repeat split; discriminate. Qed.

(** The lookup against the unreachable service, and for a number that no
    recorded driver carries. *)
Lemma fetchDriverById_outcome_sample :
  fetchDriverById offline 44 = Resolved None /\
  (fetchDriverById (recorded sampleDrivers sampleLaps) 5 = Resolved None <->
   forall d, d ∈ map normalize sampleDrivers -> F1Driver.driver_number d <> 5).
Proof.
  split.
  - destruct (fetchDriverById_outcome offline 44) as (_ & Hfail & _).
    apply (Hfail RemoteUnavailable). reflexivity.
  - destruct (fetchDriverById_outcome (recorded sampleDrivers sampleLaps) 5)
      as (_ & _ & Hok).
    destruct (Hok sampleDrivers) as (_ & Hnull & _); [reflexivity|exact Hnull].
Defined.

(** Navigation when the service records no driver at all. *)
Lemma navigate_empty_sample :
  getDriverNavigation (recorded [] sampleLaps) 44
  = Resolved {| previous := None; next := None |}.
Proof.
  destruct (navigate_empty 44) as (_ & Hfetched & _).
  apply Hfetched. reflexivity.
Defined.

(** C3 fails at the maximum when two drivers carry it: of two drivers both
    numbered 5, the number 5 is present and is the greatest, yet navigation
    from 5 stands on the first of them and [next] is the second, not null. *)
Lemma navigate_duplicate_maximum :
  let first := sampleDriver 5 "Ann FIRST" None None in
  let second := sampleDriver 5 "Ben SECOND" None None in
  let drivers := [first; second] in
  (exists d, d ∈ drivers /\ F1Driver.driver_number d = 5) /\
  (forall d, d ∈ drivers -> F1Driver.driver_number d <= 5) /\
  navigate drivers 5 = {| previous := None; next := Some second |} /\
  next (navigate drivers 5) <> None.
Proof.
  intros first second drivers. split; [|split; [|split]].
  - exists first. split; [left|reflexivity].
  - intros d Hd. unfold drivers in Hd.
    repeat (apply elem_of_cons in Hd as [->|Hd]; [cbn; lia|]).
    inversion Hd.
  - reflexivity.
  - discriminate.
Qed.

(** Navigation from driver 16 among the sample drivers. *)
Lemma navigate_adjacent_sample :
  exists index current,
    sort (fun a b => F1Driver.driver_number a - F1Driver.driver_number b)
         sampleDrivers !! index = Some current /\
    F1Driver.driver_number current = 16 /\
    previous (navigate sampleDrivers 16)
    = match index with
      | O => None
      | S i => sort (fun a b => F1Driver.driver_number a - F1Driver.driver_number b)
                    sampleDrivers !! i
      end /\
    next (navigate sampleDrivers 16)
    = sort (fun a b => F1Driver.driver_number a - F1Driver.driver_number b)
           sampleDrivers !! S index.
Proof.
  destruct (navigate_adjacent sampleDrivers 16)
    as (_ & _ & _ & _ & _ & _ & Hpresent).
  destruct Hpresent as (index & current & Hat & Hnum & _ & _ & Hprev & Hnext & _).
  - exists (sampleDriver 16 "Charles LECLERC" (Some EmptyString) (Some "Ferrari")).
    split; [|reflexivity]. unfold sampleDrivers. do 2 right. left.
  - exists index, current. repeat split; assumption.
Defined.

(** The first team of the sample drivers has the two drivers of its key,
    none of whom is the member of the second team. *)
Lemma aggregateTeams_partition_sample :
  exists t,
    aggregateTeams sampleDrivers !! 0%nat = Some t /\
    F1Team.team_name t = "Ferrari" /\
    length (F1Team.drivers t) = 2%nat /\
    forall d, d ∈ F1Team.drivers t ->
      aggregateTeams sampleDrivers !! 1%nat
      = Some {| F1Team.team_name := "Red Bull Racing";
                F1Team.team_colour := None;
                F1Team.drivers := [sampleDriver 1 "Max VERSTAPPEN" None
                                                (Some "Red Bull Racing")];
                F1Team.country_codes := ["INT"] |} /\
      d <> sampleDriver 1 "Max VERSTAPPEN" None (Some "Red Bull Racing").
Proof.
  destruct (aggregateTeams_partition sampleDrivers)
    as (Hmembers & _ & _ & _ & Hapart & _).
  eexists. split; [vm_compute; reflexivity|].
  split; [reflexivity|]. split.
  - match goal with
    | |- length (F1Team.drivers ?t) = _ =>
        destruct (Hmembers t) as [_ ->]; [vm_compute; left|reflexivity]
    end.
  - intros d Hd. split; [vm_compute; reflexivity|]. intros ->.
    eapply (Hapart 0%nat 1%nat); [vm_compute; reflexivity..|lia|exact Hd|].
    left.
Defined.

(** Sorting the sample drivers by team keeps the two Ferrari drivers in
    their input order. *)
Lemma filterAndSort_stable_sample :
  exists r1 r2 r3,
    filterAndSort codeCompare sampleDrivers EmptyString EmptyString EmptyString
      {| SortConfig.option := opt_team; SortConfig.order := asc |}
    = r1 ++ sampleDriver 44 "Lewis HAMILTON" (Some "GBR") (Some "Ferrari")
         :: r2 ++ sampleDriver 16 "Charles LECLERC" (Some EmptyString) (Some "Ferrari")
         :: r3.
Proof.
  destruct (filterAndSort_stable codeCompare codeCompare_Consistent
              sampleDrivers EmptyString EmptyString EmptyString
              {| SortConfig.option := opt_team; SortConfig.order := asc |})
    as (_ & Hpair & _).
  apply (Hpair _ _ []
               [sampleDriver 1 "Max VERSTAPPEN" None (Some "Red Bull Racing")]
               [sampleDriver 7 "Jack DOOHAN" None None]);
    reflexivity.
Defined.

(** Twelve recorded laps, numbered 1 to 12 in some order, default limit. *)
Lemma fetchDriverLaps_recent_sample :
  exists result,
    fetchDriverLaps (recorded sampleDrivers sampleLaps) 1 None = Resolved result /\
    map F1Lap.lap_number result = [12; 11; 10; 9; 8; 7; 6; 5; 4; 3].
Proof.
  destruct (fetchDriverLaps_recent (recorded sampleDrivers sampleLaps) 1 None
                                   sampleLaps)
    as (_ & _ & _ & _ & Hscenario); [reflexivity|].
  apply Hscenario; [|reflexivity].
  transitivity (sort (fun a b : Z => a - b) (map F1Lap.lap_number sampleLaps)).
  - symmetry. apply sort_Permutation.
  - vm_compute. reflexivity.
Defined.

(** The recorded sample drivers, two of them without a country code and one
    with an empty one, all come back with a code. *)
Lemma fetchDrivers_country_code_sample :
  Forall (fun d => exists code,
                    F1Driver.country_code d = Some code /\ code <> EmptyString)
         (map normalize sampleDrivers).
Proof.
  apply Forall_forall.
  apply (fetchDrivers_country_code (recorded sampleDrivers sampleLaps)).
  reflexivity.
Defined.

(* ===================================================================== *)
(** * Further properties of the service and the pages *)
(* ===================================================================== *)

(* ===================================================================== *)
(** ** Sets and the default sort *)
(* ===================================================================== *)

Lemma arr_includes_elem (arr : list string) (x : string) :
  arr_includes arr x = true <-> x ∈ arr.
Proof.
  unfold arr_includes. rewrite existsb_exists. split.
  - intros (y & Hy & ->%String.eqb_eq). now apply list_elem_of_In.
  - intros H. exists x. split; [now apply list_elem_of_In|apply String.eqb_refl].
Qed.

Lemma new_Set_snoc (arr : list string) (x : string) :
  new_Set (arr ++ [x]) = Set_add (new_Set arr) x.
Proof. unfold new_Set. now rewrite fold_left_app. Qed.

Lemma Set_add_elem (set : list string) (x y : string) :
  y ∈ Set_add set x <-> y ∈ set \/ y = x.
Proof.
  unfold Set_add. destruct (arr_includes set x) eqn:E.
  - apply arr_includes_elem in E. split; [auto|]. now intros [H| ->].
  - rewrite elem_of_app, list_elem_of_singleton. tauto.
Qed.

Lemma new_Set_elem (arr : list string) (x : string) :
  x ∈ new_Set arr <-> x ∈ arr.
Proof.
  induction arr as [|y arr IH] using rev_ind.
  - reflexivity.
  - rewrite new_Set_snoc, Set_add_elem, IH, elem_of_app, list_elem_of_singleton.
    tauto.
Qed.

Lemma new_Set_NoDup (arr : list string) : NoDup (new_Set arr).
Proof.
  induction arr as [|y arr IH] using rev_ind; [constructor|].
  rewrite new_Set_snoc. unfold Set_add.
  destruct (arr_includes (new_Set arr) y) eqn:E; [exact IH|].
  apply NoDup_app. split; [exact IH|]. split; [|apply NoDup_singleton].
  intros x Hx ->%list_elem_of_singleton.
  apply arr_includes_elem in Hx. congruence.
Qed.

Lemma new_Set_nonempty (arr : list string) : arr <> [] -> new_Set arr <> [].
Proof.
  destruct arr as [|x arr]; [contradiction|]. intros _ E.
  assert (H : x ∈ new_Set (x :: arr)) by (apply new_Set_elem; left).
  rewrite E in H. inversion H.
Qed.

Lemma codeCompare_eq (a b : string) : codeCompare a b = 0 -> a = b.
Proof.
  unfold codeCompare. destruct (String.compare a b) eqn:E; try discriminate.
  intros _. now apply String.compare_eq_iff.
Qed.

Lemma StronglySorted_strict {A : Type} (R S : A -> A -> Prop) (l : list A) :
  (forall a b, a ∈ l -> b ∈ l -> R a b -> a <> b -> S a b) ->
  NoDup l -> StronglySorted R l -> StronglySorted S l.
Proof.
  intros HRS Hnd Hs. induction Hs as [|a l Hs IH Ha]; [constructor|].
  apply NoDup_cons in Hnd as [Hnotin Hnd].
  constructor.
  - apply IH; [|exact Hnd]. intros x y Hx Hy. apply HRS; now right.
  - rewrite Forall_forall in *. intros b Hb. apply HRS.
    + left.
    + now right.
    + now apply Ha.
    + intros ->. contradiction.
Qed.

(** The default sort of a duplicate-free array is strictly ascending. *)
Lemma sort_default_new_Set (arr : list string) :
  StronglySorted (fun a b => codeCompare a b < 0) (sort_default (new_Set arr)) /\
  forall x, x ∈ sort_default (new_Set arr) <-> x ∈ arr.
Proof.
  unfold sort_default.
  assert (Hperm : Permutation (sort codeCompare (new_Set arr)) (new_Set arr))
    by apply sort_Permutation.
  split.
  - eapply (StronglySorted_strict (fun a b => codeCompare a b <= 0)).
    + intros a b _ _ Hle Hne.
      destruct (Z.eq_dec (codeCompare a b) 0) as [E|E]; [|lia].
      apply codeCompare_eq in E. contradiction.
    + rewrite Hperm. apply new_Set_NoDup.
    + apply sort_StronglySorted, codeCompare_Consistent.
  - intros x. now rewrite Hperm, new_Set_elem.
Qed.

(* ===================================================================== *)
(** ** The list page: options, search and sort buttons *)
(* ===================================================================== *)

Lemma filter_Boolean_elem (arr : list (option string)) (x : string) :
  x ∈ filter_Boolean arr <-> x <> EmptyString /\ Some x ∈ arr.
Proof.
  unfold filter_Boolean. rewrite list_elem_of_omap. split.
  - intros (o & Ho & Hx). destruct (truthy o) eqn:Ht; [|discriminate].
    subst o. split; [|exact Ho]. cbn in Ht.
    destruct (String.eqb_spec x EmptyString); [discriminate|assumption].
  - intros [Hne Hin]. exists (Some x). split; [exact Hin|].
    cbn. destruct (String.eqb_spec x EmptyString); [contradiction|reflexivity].
Qed.

Lemma driver_code_nonempty (d : F1Driver) : driver_code d <> EmptyString.
Proof.
  unfold driver_code. destruct (truthy (F1Driver.country_code d)) eqn:Ht.
  - now apply or_else_truthy.
  - rewrite or_else_falsy by assumption. discriminate.
Qed.

Lemma filterOptions_elem (drivers : list F1Driver) :
  (forall t, t ∈ fst (filterOptions drivers) <->
             t <> EmptyString /\
             exists d, d ∈ drivers /\ F1Driver.team_name d = Some t) /\
  (forall c, c ∈ snd (filterOptions drivers) <->
             exists d, d ∈ drivers /\ driver_code d = c).
Proof.
  unfold filterOptions. cbn [fst snd]. split.
  - intros t. rewrite (proj2 (sort_default_new_Set _)), filter_Boolean_elem.
    split.
    + intros [Hne (d & Hd & Hin)%list_elem_of_fmap]. split; [exact Hne|].
      now exists d.
    + intros [Hne (d & Hin & Hd)]. split; [exact Hne|].
      apply list_elem_of_fmap. now exists d.
  - intros c. rewrite (proj2 (sort_default_new_Set _)), filter_Boolean_elem.
    split.
    + intros [Hne (d & Hd & Hin)%list_elem_of_fmap]. exists d.
      split; [exact Hin|]. unfold driver_code. congruence.
    + intros (d & Hin & <-). split; [apply driver_code_nonempty|].
      apply list_elem_of_fmap. now exists d.
Qed.

(** X1: the options of the two selects of the list page are strictly
    ascending, hence without duplicates; the teams offered are exactly the
    non-empty team names of the drivers, and the countries offered exactly
    the country codes shown for them (["INT"] standing for a missing one). *)
Theorem filterOptions_sorted_distinct (drivers : list F1Driver) :
  let teams := fst (filterOptions drivers) in
  let countries := snd (filterOptions drivers) in
  StronglySorted (fun a b => codeCompare a b < 0) teams /\
  (forall t, t ∈ teams <->
             t <> EmptyString /\
             exists d, d ∈ drivers /\ F1Driver.team_name d = Some t) /\
  StronglySorted (fun a b => codeCompare a b < 0) countries /\
  (forall c, c ∈ countries <-> exists d, d ∈ drivers /\ driver_code d = c).
Proof.
  intros teams countries.
  destruct (filterOptions_elem drivers) as [Hteams Hcountries].
  split; [apply sort_default_new_Set|]. split; [exact Hteams|].
  split; [apply sort_default_new_Set|exact Hcountries].
Qed.

Lemma includes_self (s : string) : includes s s = true.
Proof.
  destruct s as [|c s]; [reflexivity|]. cbn [includes].
  assert (H : String.prefix (String c s) (String c s) = true).
  { generalize (String c s). intros t. induction t as [|a t IH]; [reflexivity|].
    cbn. destruct (Ascii.ascii_dec a a); [exact IH|contradiction]. }
  now rewrite H.
Qed.

Lemma truthy_Some (s : string) : truthy (Some s) = negb (String.eqb s EmptyString).
Proof. reflexivity. Qed.

Lemma matchesDriver_team_only (t : string) (d : F1Driver) :
  t <> EmptyString ->
  (matchesDriver EmptyString t EmptyString d = true
   <-> F1Driver.team_name d = Some t).
Proof.
  intros Hne. unfold matchesDriver.
  cbn [toLowerCase]. rewrite !includes_empty, !truthy_Some.
  cbn [orb andb negb String.eqb].
  destruct (String.eqb_spec t EmptyString) as [|_]; [contradiction|].
  cbn [negb orb]. rewrite andb_true_r.
  destruct (F1Driver.team_name d) as [team|]; [|split; discriminate].
  destruct (String.eqb_spec team t) as [->|Hd]; split; congruence.
Qed.

Lemma matchesDriver_country_only (c : string) (d : F1Driver) :
  c <> EmptyString ->
  (matchesDriver EmptyString EmptyString c d = true <-> driver_code d = c).
Proof.
  intros Hne. unfold matchesDriver, driver_code.
  cbn [toLowerCase]. rewrite !includes_empty, !truthy_Some.
  cbn [orb andb negb String.eqb].
  destruct (String.eqb_spec c EmptyString) as [|_]; [contradiction|].
  cbn [negb orb].
  destruct (String.eqb_spec (or_else (F1Driver.country_code d) "INT") c);
    split; congruence.
Qed.

Lemma filter_swap {A : Type} (f g : A -> bool) (l : list A) :
  List.filter f (List.filter g l) = List.filter g (List.filter f l).
Proof.
  induction l as [|x l IH]; [reflexivity|]. cbn [List.filter].
  destruct (f x) eqn:Hf, (g x) eqn:Hg; cbn [List.filter];
    rewrite ?Hf, ?Hg, IH; reflexivity.
Qed.

Lemma StronglySorted_filter {A : Type} (R : A -> A -> Prop) (p : A -> bool)
  (l : list A) :
  StronglySorted R l -> StronglySorted R (List.filter p l).
Proof.
  induction 1 as [|a l Hs IH Ha]; [constructor|]. cbn [List.filter].
  destruct (p a); [|exact IH]. constructor; [exact IH|].
  rewrite Forall_forall in *. intros b Hb%list_elem_of_In%filter_In.
  apply Ha, list_elem_of_In, Hb.
Qed.

Lemma StronglySorted_snoc {A : Type} (R : A -> A -> Prop) (l : list A) (a : A) :
  StronglySorted R l -> Forall (fun x => R x a) l -> StronglySorted R (l ++ [a]).
Proof.
  induction 1 as [|b l Hs IH Hb]; intros Hall; cbn [app].
  - repeat constructor.
  - apply Forall_cons in Hall as [Hba Hall].
    constructor; [now apply IH|].
    apply Forall_app. split; [exact Hb|]. now repeat constructor.
Qed.

Lemma StronglySorted_rev {A : Type} (R : A -> A -> Prop) (l : list A) :
  StronglySorted R l -> StronglySorted (fun a b => R b a) (rev l).
Proof.
  induction 1 as [|a l Hs IH Ha]; [constructor|]. cbn [rev].
  apply StronglySorted_snoc; [exact IH|].
  rewrite Forall_forall in *. intros x Hx. apply Ha.
  apply list_elem_of_In, in_rev, list_elem_of_In. exact Hx.
Qed.

Lemma filter_rev {A : Type} (p : A -> bool) (l : list A) :
  List.filter p (rev l) = rev (List.filter p l).
Proof.
  induction l as [|x l IH]; [reflexivity|]. cbn [rev List.filter].
  rewrite List.filter_app, IH. cbn [List.filter].
  destruct (p x); cbn [rev]; [reflexivity|apply app_nil_r].
Qed.

Section MoreSortFacts.

Context {A : Type} (cmp : A -> A -> Z).
Hypothesis cmp_ok : Consistent cmp.

(** Sorting what passes a test is testing what was sorted. *)
Lemma sort_filter_comm (p : A -> bool) (l : list A) :
  sort cmp (List.filter p l) = List.filter p (sort cmp l).
Proof.
  symmetry. apply (sort_is_the_stable_ordering cmp cmp_ok).
  - apply StronglySorted_filter, sort_StronglySorted, cmp_ok.
  - intros a. rewrite filter_swap, (sort_stable cmp cmp_ok). apply filter_swap.
Qed.

(** When no two elements compare equal, the descending order is the
    ascending one reversed. *)
Lemma sort_opp_rev (l : list A) :
  (forall i j a b, l !! i = Some a -> l !! j = Some b -> cmp a b = 0 -> i = j) ->
  sort (fun a b => - cmp a b) l = rev (sort cmp l).
Proof.
  intros Hdistinct.
  assert (Hone : forall a, rev (List.filter (fun x => cmp a x =? 0) l)
                           = List.filter (fun x => cmp a x =? 0) l).
  { intros a.
    assert (Hlen : Nat.le (length (List.filter (fun x => cmp a x =? 0) l)) 1).
    { clear -cmp_ok Hdistinct. induction l as [|x l IH]; [cbn; unfold Nat.le; lia|].
      cbn [List.filter].
      assert (IH' : Nat.le (length (List.filter (fun x => cmp a x =? 0) l)) 1).
      { apply IH. intros i j u v Hi Hj Huv.
        assert (S i = S j) by (apply (Hdistinct (S i) (S j) u v); assumption).
        lia. }
      destruct (Z.eqb_spec (cmp a x) 0) as [Hx|_]; [|exact IH'].
      rewrite filter_nothing; [cbn; unfold Nat.le; lia|].
      intros y [j Hj]%list_elem_of_lookup. apply Z.eqb_neq. intros Hy.
      assert (Hxy : cmp x y = 0).
      { apply (cmp_eq_trans cmp cmp_ok x a y); [|exact Hy].
        now apply (cmp_flip_eq cmp cmp_ok). }
      assert (0%nat = S j) by (apply (Hdistinct 0%nat (S j) x y); auto).
      lia. }
    unfold Nat.le in Hlen.
    destruct (List.filter (fun x => cmp a x =? 0) l) as [|u [|v k]]; cbn in *;
      [reflexivity..|lia]. }
  symmetry. apply (sort_is_the_stable_ordering _ (Consistent_opp cmp cmp_ok)).
  - eapply StronglySorted_weaken; [|apply StronglySorted_rev, sort_StronglySorted, cmp_ok].
    cbv beta. intros a b Hba.
    destruct (Z.eq_dec (cmp b a) 0) as [E|E].
    + rewrite (cmp_flip_eq cmp cmp_ok _ _ E). lia.
    + assert (cmp b a < 0) as L by lia. apply (cmp_flip_lt cmp cmp_ok) in L. lia.
  - intros a.
    assert (Hext : forall k, List.filter (fun x => - cmp a x =? 0) k
                             = List.filter (fun x => cmp a x =? 0) k).
    { intros k. apply filter_ext. intros x.
      destruct (Z.eqb_spec (- cmp a x) 0), (Z.eqb_spec (cmp a x) 0); lia || reflexivity. }
    rewrite !Hext, filter_rev, (sort_stable cmp cmp_ok). apply Hone.
Qed.

End MoreSortFacts.



Section ListPageFacts.

Variable localeCompare : string -> string -> Z.

Lemma filterAndSort_elem (drivers : list F1Driver) (q t c : string)
  (cfg : SortConfig) (d : F1Driver) :
  d ∈ filterAndSort localeCompare drivers q t c cfg
  <-> d ∈ drivers /\ matchesDriver q t c d = true.
Proof.
  unfold filterAndSort. rewrite sort_Permutation.
  rewrite list_elem_of_In, filter_In, <- list_elem_of_In. reflexivity.
Qed.

(** X2: every option offered by the selects of the list page leads to a
    non-empty list: choosing an offered team (with no search text and no
    country) shows exactly the drivers of that team, at least one, and
    choosing an offered country exactly the drivers shown with that code. *)
Theorem filterOptions_never_empty (drivers : list F1Driver) (cfg : SortConfig) :
  (forall t, t ∈ fst (filterOptions drivers) ->
     filterAndSort localeCompare drivers EmptyString t EmptyString cfg <> [] /\
     forall d, d ∈ filterAndSort localeCompare drivers EmptyString t EmptyString cfg
               <-> d ∈ drivers /\ F1Driver.team_name d = Some t) /\
  (forall c, c ∈ snd (filterOptions drivers) ->
     filterAndSort localeCompare drivers EmptyString EmptyString c cfg <> [] /\
     forall d, d ∈ filterAndSort localeCompare drivers EmptyString EmptyString c cfg
               <-> d ∈ drivers /\ driver_code d = c).
Proof.
  destruct (filterOptions_elem drivers) as [Hteams Hcountries].
  split.
  - intros t [Hne (d & Hd & Hteam)]%Hteams.
    assert (Hall : forall d', d' ∈ filterAndSort localeCompare drivers
                                     EmptyString t EmptyString cfg
                              <-> d' ∈ drivers /\ F1Driver.team_name d' = Some t).
    { intros d'. now rewrite filterAndSort_elem, matchesDriver_team_only. }
    split; [|exact Hall].
    intros E. assert (Hin : d ∈ @nil F1Driver) by (rewrite <- E; now apply Hall).
    inversion Hin.
  - intros c (d & Hd & Hcode)%Hcountries.
    assert (Hne : c <> EmptyString) by (rewrite <- Hcode; apply driver_code_nonempty).
    assert (Hall : forall d', d' ∈ filterAndSort localeCompare drivers
                                     EmptyString EmptyString c cfg
                              <-> d' ∈ drivers /\ driver_code d' = c).
    { intros d'. now rewrite filterAndSort_elem, matchesDriver_country_only. }
    split; [|exact Hall].
    intros E. assert (Hin : d ∈ @nil F1Driver) by (rewrite <- E; now apply Hall).
    inversion Hin.
Qed.

End ListPageFacts.

Lemma NoDup_map_filter {A B : Type} (f : A -> B) (p : A -> bool) (l : list A) :
  NoDup (map f l) -> NoDup (map f (List.filter p l)).
Proof.
  induction l as [|x l IH]; [intros; constructor|]. cbn [map List.filter].
  intros [Hx Hnd]%NoDup_cons. destruct (p x); [|now apply IH].
  cbn [map]. apply NoDup_cons. split; [|now apply IH].
  intros (y & Hy & Hin%list_elem_of_In%filter_In)%list_elem_of_fmap.
  apply Hx. apply list_elem_of_fmap. exists y.
  split; [exact Hy|]. apply list_elem_of_In, Hin.
Qed.

Section ListPageSearch.

Variable localeCompare : string -> string -> Z.

(** X3: a driver is always found by its own names: searching for the full
    name, the broadcast name or the (non-empty) team name of a driver of
    the collection, with no other filter, lists that driver, whatever the
    sort configuration. *)
Theorem filterAndSort_finds_by_name (drivers : list F1Driver) (d : F1Driver)
  (cfg : SortConfig) :
  d ∈ drivers ->
  d ∈ filterAndSort localeCompare drivers (F1Driver.full_name d)
        EmptyString EmptyString cfg /\
  d ∈ filterAndSort localeCompare drivers (F1Driver.broadcast_name d)
        EmptyString EmptyString cfg /\
  (forall team, F1Driver.team_name d = Some team -> team <> EmptyString ->
     d ∈ filterAndSort localeCompare drivers team EmptyString EmptyString cfg).
Proof.
  intros Hd. repeat split; try intros team Hteam Hne;
    apply filterAndSort_elem; (split; [exact Hd|]); unfold matchesDriver;
    rewrite ?Hteam, ?truthy_Some; cbn [String.eqb negb orb andb].
  - now rewrite includes_self.
  - rewrite includes_self. now rewrite orb_true_r.
  - destruct (String.eqb_spec team EmptyString) as [|_]; [contradiction|].
    cbn [negb andb]. rewrite includes_self. now rewrite !orb_true_r.
Qed.

Hypothesis localeCompare_ok : Consistent localeCompare.

(** X4: whatever the search text, the filters and the sort configuration,
    the list shown is a rearrangement of the drivers that pass the filter,
    none lost and none duplicated, in the order of the selected comparator;
    and it is the unfiltered sorted list with the drivers that do not pass
    taken out: filtering never reorders what is shown. *)
Theorem filterAndSort_sorted_view (drivers : list F1Driver)
  (searchQuery selectedTeam selectedCountry : string) (sortConfig : SortConfig) :
  let passes := matchesDriver searchQuery selectedTeam selectedCountry in
  let result :=
    filterAndSort localeCompare drivers searchQuery selectedTeam selectedCountry
                  sortConfig in
  Permutation result (List.filter passes drivers) /\
  StronglySorted (fun a b => compareDrivers localeCompare sortConfig a b <= 0)
                 result /\
  result
  = List.filter passes
      (filterAndSort localeCompare drivers EmptyString EmptyString EmptyString
                     sortConfig) /\
  (length result <= length drivers)%nat.
Proof.
  intros passes result.
  pose proof (compareDrivers_Consistent localeCompare localeCompare_ok sortConfig)
    as Hcmp.
  unfold result, filterAndSort. split; [apply sort_Permutation|].
  split; [now apply sort_StronglySorted|]. split.
  - rewrite (filter_everything _ _ (matchesDriver_no_criteria)).
    now apply sort_filter_comm.
  - rewrite sort_length. pose proof (List.filter_length passes drivers). fold passes. lia.
Qed.

(** X5: when no two listed drivers compare equal, the descending list is
    the ascending list reversed; this is the case of the order by
    [driver_number] as soon as driver numbers are unique.  (Drivers that
    compare equal keep their input order in both directions instead.) *)
Theorem filterAndSort_desc_reverses (drivers : list F1Driver)
  (searchQuery selectedTeam selectedCountry : string) (option : DriverSortOption) :
  let passing :=
    List.filter (matchesDriver searchQuery selectedTeam selectedCountry) drivers in
  let view order :=
    filterAndSort localeCompare drivers searchQuery selectedTeam selectedCountry
      {| SortConfig.option := option; SortConfig.order := order |} in
  let ascending :=
    compareDrivers localeCompare
      {| SortConfig.option := option; SortConfig.order := asc |} in
  ((forall i j a b, passing !! i = Some a -> passing !! j = Some b ->
                    ascending a b = 0 -> i = j) ->
   view desc = rev (view asc)) /\
  (option = opt_driver_number -> NoDup (map F1Driver.driver_number drivers) ->
   view desc = rev (view asc)).
Proof.
  intros passing view ascending.
  assert (Hgen : (forall i j a b, passing !! i = Some a -> passing !! j = Some b ->
                                  ascending a b = 0 -> i = j) ->
                 view desc = rev (view asc)).
  { intros Hdistinct. unfold view, filterAndSort. fold passing.
    apply (sort_opp_rev ascending); [|exact Hdistinct].
    apply compareDrivers_Consistent, localeCompare_ok. }
  split; [exact Hgen|].
  intros -> Hnodup. apply Hgen. intros i j a b Hi Hj Hab.
  assert (Hnd : NoDup (map F1Driver.driver_number passing))
    by now apply NoDup_map_filter.
  apply (NoDup_lookup _ i j (F1Driver.driver_number a) Hnd).
  - change (map F1Driver.driver_number) with (fmap (M:=list) F1Driver.driver_number).
    now rewrite list_lookup_fmap, Hi.
  - change (map F1Driver.driver_number) with (fmap (M:=list) F1Driver.driver_number).
    rewrite list_lookup_fmap, Hj. cbn. f_equal.
    unfold ascending, compareDrivers in Hab. cbn in Hab. lia.
Qed.

End ListPageSearch.

Lemma DriverSortOption_eqb_eq (a b : DriverSortOption) :
  DriverSortOption_eqb a b = true <-> a = b.
Proof. destruct a, b; cbn; split; congruence. Qed.

(** X6: the sort buttons: a click selects the clicked option; on another
    option than the active one it starts ascending; on the active option it
    flips the order, so two clicks on the active option restore the
    configuration. *)
Theorem handleSort_toggles (option : DriverSortOption) (prev : SortConfig) :
  SortConfig.option (handleSort option prev) = option /\
  (SortConfig.option prev <> option ->
   SortConfig.order (handleSort option prev) = asc) /\
  (SortConfig.option prev = option ->
   SortConfig.order (handleSort option prev) <> SortConfig.order prev /\
   handleSort option (handleSort option prev) = prev).
Proof.
  split; [reflexivity|]. split.
  - intros Hne. unfold handleSort. cbn.
    destruct (DriverSortOption_eqb (SortConfig.option prev) option) eqn:E;
      [|reflexivity].
    apply DriverSortOption_eqb_eq in E. contradiction.
  - intros <-. destruct prev as [o []]; destruct o; cbn; split;
      (discriminate || reflexivity).
Qed.

(* ===================================================================== *)
(** ** Aggregator: what each team holds *)
(* ===================================================================== *)

Lemma Map_has_keys {V : Type} (m : JsMap V) (k : string) :
  Map_has m k = arr_includes (map fst m) k.
Proof.
  unfold Map_has, arr_includes.
  induction m as [|[k' v] m IH]; [reflexivity|]. cbn.
  now rewrite IH, (String.eqb_sym k' k).
Qed.

Lemma Map_at {V : Type} (m1 : JsMap V) (k : string) (v : V) (m2 : JsMap V) :
  k ∉ map fst m1 ->
  Map_has (m1 ++ (k, v) :: m2) k = true /\
  Map_get (m1 ++ (k, v) :: m2) k = Some v /\
  forall v', Map_set (m1 ++ (k, v) :: m2) k v' = m1 ++ (k, v') :: m2.
Proof.
  induction m1 as [|[k' w] m1 IH]; cbn.
  - intros _. rewrite String.eqb_refl. now repeat split.
  - intros [Hne Hk]%not_elem_of_cons.
    destruct (IH Hk) as (Hhas & Hget & Hset).
    destruct (String.eqb_spec k' k) as [E|_]; [congruence|].
    cbn. repeat split; try assumption. intros v'. now rewrite Hset.
Qed.

(** The body of the [forEach] of [fetchTeams], case by case. *)
Lemma aggregate_step_cases (m : JsMap F1Team) (d : F1Driver) :
  (Map_has m (team_key d) = false ->
   aggregate_step m d
   = m ++ [(team_key d,
            {| F1Team.team_name := team_key d;
               F1Team.team_colour := F1Driver.team_colour d;
               F1Team.drivers := [d];
               F1Team.country_codes := [driver_code d] |})]) /\
  (forall m1 t m2,
     m = m1 ++ (team_key d, t) :: m2 -> team_key d ∉ map fst m1 ->
     aggregate_step m d
     = m1 ++ (team_key d,
              {| F1Team.team_name := F1Team.team_name t;
                 F1Team.team_colour := F1Team.team_colour t;
                 F1Team.drivers := F1Team.drivers t ++ [d];
                 F1Team.country_codes :=
                   Set_add (F1Team.country_codes t) (driver_code d) |}) :: m2).
Proof.
  split.
  - intros Hhas. unfold aggregate_step. fold (team_key d). rewrite Hhas.
    cbn [negb]. rewrite Map_set_fresh by exact Hhas.
    apply Map_has_false in Hhas.
    destruct (Map_at m (team_key d)
                {| F1Team.team_name := team_key d;
                   F1Team.team_colour := F1Driver.team_colour d;
                   F1Team.drivers := [];
                   F1Team.country_codes := [] |} [] Hhas) as (_ & -> & ->).
    reflexivity.
  - intros m1 t m2 -> Hnotin. unfold aggregate_step. fold (team_key d).
    destruct (Map_at m1 (team_key d) t m2 Hnotin) as (Hhas & Hget & Hset).
    rewrite Hhas. cbn [negb]. rewrite Hget, Hset.
    do 3 f_equal. fold (driver_code d).
    unfold Set_add, F1Team.push_driver, F1Team.push_country_code.
    cbn [F1Team.country_codes F1Team.drivers F1Team.team_name F1Team.team_colour].
    now destruct (arr_includes (F1Team.country_codes t) (driver_code d)).
Qed.

Lemma team_describes_other (p : list F1Driver) (d : F1Driver)
  (entry : string * F1Team) :
  fst entry <> team_key d ->
  team_describes p entry -> team_describes (p ++ [d]) entry.
Proof.
  intros Hne. unfold team_describes. rewrite filter_team_app.
  destruct (String.eqb_spec (team_key d) (fst entry)) as [E|_]; [congruence|].
  now rewrite app_nil_r.
Qed.

Lemma team_describes_joined (p : list F1Driver) (d : F1Driver) (t : F1Team) :
  team_describes p (team_key d, t) ->
  team_describes (p ++ [d])
    (team_key d,
     {| F1Team.team_name := F1Team.team_name t;
        F1Team.team_colour := F1Team.team_colour t;
        F1Team.drivers := F1Team.drivers t ++ [d];
        F1Team.country_codes :=
          Set_add (F1Team.country_codes t) (driver_code d) |}).
Proof.
  unfold team_describes. cbn [fst snd]. rewrite filter_team_app, String.eqb_refl.
  cbn [F1Team.team_name F1Team.drivers F1Team.country_codes F1Team.team_colour].
  intros (Hname & Hdrivers & Hne & Hcodes & Hcolour).
  split; [exact Hname|]. split; [now rewrite Hdrivers|].
  split; [intros [E _]%app_eq_nil; contradiction|].
  split.
  - rewrite map_app. cbn [map]. now rewrite new_Set_snoc, Hcodes.
  - rewrite Hcolour.
    destruct (List.filter _ p) as [|x k]; [contradiction|reflexivity].
Qed.

Lemma team_describes_new (p : list F1Driver) (d : F1Driver) :
  List.filter (fun d' => String.eqb (team_key d') (team_key d)) p = [] ->
  team_describes (p ++ [d])
    (team_key d,
     {| F1Team.team_name := team_key d;
        F1Team.team_colour := F1Driver.team_colour d;
        F1Team.drivers := [d];
        F1Team.country_codes := [driver_code d] |}).
Proof.
  intros Hnone. unfold team_describes. cbn [fst snd].
  rewrite filter_team_app, String.eqb_refl, Hnone.
  cbn. repeat split. discriminate.
Qed.

Lemma fold_left_described (drivers : list F1Driver) :
  let m := fold_left aggregate_step drivers [] in
  map fst m = new_Set (map team_key drivers) /\ Forall (team_describes drivers) m.
Proof.
  induction drivers as [|d p IH] using rev_ind; [split; constructor|].
  cbv zeta in *. rewrite fold_left_app. cbn [fold_left].
  set (m := fold_left aggregate_step p []) in *.
  destruct IH as [Hkeys Hteams].
  destruct (aggregate_step_cases m d) as [Hnew Hold].
  rewrite (map_app team_key). cbn [map]. rewrite new_Set_snoc. unfold Set_add.
  rewrite <- Hkeys, <- Map_has_keys.
  destruct (Map_has m (team_key d)) eqn:Hhas.
  - destruct (Map_get_split m (team_key d) Hhas)
      as (m1 & t & m2 & Hm & Hnotin & _ & _).
    rewrite (Hold m1 t m2 Hm Hnotin). rewrite Hm in Hkeys, Hteams |- *.
    assert (Hnd : NoDup (map fst (m1 ++ (team_key d, t) :: m2)))
      by (rewrite Hkeys; apply new_Set_NoDup).
    rewrite map_app in Hnd |- *. cbn [map fst] in Hnd |- *.
    apply NoDup_app in Hnd as (_ & Hdisj & [Hk2 _]%NoDup_cons).
    rewrite map_app. cbn [map fst]. split; [reflexivity|].
    apply Forall_app in Hteams as [H1 [Ht H2]%Forall_cons].
    apply Forall_app. split; [|constructor].
    + rewrite Forall_forall in *. intros e He.
      apply team_describes_other; [|now apply H1].
      intros E. apply Hnotin. rewrite <- E. apply list_elem_of_fmap. now exists e.
    + now apply team_describes_joined.
    + rewrite Forall_forall in *. intros e He.
      apply team_describes_other; [|now apply H2].
      intros E. apply Hk2. rewrite <- E. apply list_elem_of_fmap. now exists e.
  - rewrite (Hnew eq_refl), map_app. cbn [map fst]. split; [reflexivity|].
    apply Map_has_false in Hhas.
    apply Forall_app. split; [|constructor; [|constructor]].
    + rewrite Forall_forall in *. intros e He.
      apply team_describes_other; [|now apply Hteams].
      intros E. apply Hhas. rewrite <- E. apply list_elem_of_fmap. now exists e.
    + apply team_describes_new. apply filter_nothing.
      intros d' Hd'. apply String.eqb_neq. intros E. apply Hhas.
      rewrite Hkeys, new_Set_elem, <- E. apply list_elem_of_fmap. now exists d'.
Qed.

Lemma new_Set_order (arr : list string) (i j : nat) (a b : string) :
  new_Set arr !! i = Some a -> new_Set arr !! j = Some b -> (i < j)%nat ->
  exists l1 l2, arr = l1 ++ a :: l2 /\ (b ∉ l1) /\ a <> b.
Proof.
  revert i j a b. induction arr as [|x arr IH] using rev_ind; intros i j a b Hi Hj Hij.
  - discriminate.
  - rewrite new_Set_snoc in Hi, Hj. unfold Set_add in Hi, Hj.
    assert (Hlift : forall l1 l2, arr = l1 ++ a :: l2 -> b ∉ l1 -> a <> b ->
              exists l1' l2', arr ++ [x] = l1' ++ a :: l2' /\ (b ∉ l1') /\ a <> b).
    { intros l1 l2 -> Hb Hab. exists l1, (l2 ++ [x]).
      now rewrite <- app_assoc. }
    destruct (arr_includes (new_Set arr) x) eqn:E.
    + destruct (IH i j a b Hi Hj Hij) as (l1 & l2 & H1 & H2 & H3). eauto.
    + destruct (Nat.lt_ge_cases j (length (new_Set arr))) as [Hlt|Hge].
      * rewrite lookup_app_l in Hi, Hj by lia.
        destruct (IH i j a b Hi Hj Hij) as (l1 & l2 & H1 & H2 & H3). eauto.
      * assert (Hilt : (i < length (new_Set arr))%nat).
        { apply lookup_lt_Some in Hj. rewrite length_app in Hj. cbn in Hj. lia. }
        rewrite lookup_app_l in Hi by lia.
        rewrite lookup_app_r in Hj by lia.
        assert (Hbx : b = x).
        { apply list_lookup_singleton_Some in Hj. now destruct Hj. }
        subst b.
        assert (Hx : x ∉ arr).
        { rewrite <- new_Set_elem, <- arr_includes_elem. congruence. }
        assert (Ha : a ∈ arr).
        { apply new_Set_elem. eapply list_elem_of_lookup_2; eassumption. }
        apply list_elem_of_split in Ha as (l1 & l2 & ->).
        exists l1, (l2 ++ [x]). rewrite <- app_assoc. split; [reflexivity|].
        split.
        -- intros H. apply Hx. apply elem_of_app. now left.
        -- intros ->. apply Hx. apply elem_of_app. right. left.
Qed.

Lemma head_filter_find {A : Type} (f : A -> bool) (l : list A) :
  head (List.filter f l) = List.find f l.
Proof.
  induction l as [|x l IH]; [reflexivity|]. cbn. now destruct (f x).
Qed.

(** X7: the teams come out in the order in which their keys are first met
    in the input: the team names are the distinct team keys of the drivers
    in first-seen order, so of two teams the earlier one has a member that
    precedes every member of the later one. *)
Theorem aggregateTeams_first_seen_order (drivers : list F1Driver) :
  let teams := aggregateTeams drivers in
  map F1Team.team_name teams = new_Set (map team_key drivers) /\
  (forall name, name ∈ map F1Team.team_name teams
                <-> exists d, d ∈ drivers /\ team_key d = name) /\
  (forall i j ti tj,
     teams !! i = Some ti -> teams !! j = Some tj -> (i < j)%nat ->
     exists before d after,
       drivers = before ++ d :: after /\
       team_key d = F1Team.team_name ti /\
       forall x, x ∈ before -> team_key x <> F1Team.team_name tj).
Proof.
  intros teams.
  destruct (fold_left_described drivers) as [Hkeys Hteams].
  set (m := fold_left aggregate_step drivers []) in *.
  assert (Hnames : map F1Team.team_name teams = new_Set (map team_key drivers)).
  { rewrite <- Hkeys. unfold teams, aggregateTeams, Map_values. fold m.
    rewrite map_map. apply map_ext_in. intros e He.
    rewrite Forall_forall in Hteams. apply list_elem_of_In in He.
    now destruct (Hteams e He). }
  split; [exact Hnames|]. split.
  - intros name. rewrite Hnames, new_Set_elem. split.
    + intros (d & -> & Hd)%list_elem_of_fmap. now exists d.
    + intros (d & Hd & <-). apply list_elem_of_fmap. now exists d.
  - intros i j ti tj Hi Hj Hij.
    assert (Hni : new_Set (map team_key drivers) !! i = Some (F1Team.team_name ti)).
    { rewrite <- Hnames.
      change (map F1Team.team_name) with (fmap (M:=list) F1Team.team_name).
      now rewrite list_lookup_fmap, Hi. }
    assert (Hnj : new_Set (map team_key drivers) !! j = Some (F1Team.team_name tj)).
    { rewrite <- Hnames.
      change (map F1Team.team_name) with (fmap (M:=list) F1Team.team_name).
      now rewrite list_lookup_fmap, Hj. }
    destruct (new_Set_order _ i j _ _ Hni Hnj Hij) as (k1 & k2 & Hsplit & Hnot & _).
    change (map team_key drivers) with (team_key <$> drivers) in Hsplit.
    apply fmap_app_inv in Hsplit as (before & rest & -> & Hrest & ->).
    symmetry in Hrest. apply fmap_cons_inv in Hrest as (d & after & Hd & -> & ->).
    exists before, d, after. split; [reflexivity|]. split; [now symmetry|].
    intros x Hx E. apply Hnot. rewrite <- E. apply list_elem_of_fmap. now exists x.
Qed.

(** X8: every team has at least one member; its colour is the colour of
    its first member, who is the first input driver of its key; and its
    country codes are the codes of its members (["INT"] for a missing one),
    each once, in the order the members first show them. *)
Theorem aggregateTeams_team_contents (drivers : list F1Driver) (t : F1Team) :
  t ∈ aggregateTeams drivers ->
  F1Team.drivers t <> [] /\
  head (F1Team.drivers t)
  = List.find (fun d => String.eqb (team_key d) (F1Team.team_name t)) drivers /\
  F1Team.team_colour t = (head (F1Team.drivers t) ≫= F1Driver.team_colour) /\
  F1Team.country_codes t = new_Set (map driver_code (F1Team.drivers t)) /\
  NoDup (F1Team.country_codes t) /\
  F1Team.country_codes t <> [] /\
  (forall c, c ∈ F1Team.country_codes t
             <-> exists d, d ∈ F1Team.drivers t /\ driver_code d = c).
Proof.
  intros Ht. destruct (fold_left_described drivers) as [_ Hteams].
  unfold aggregateTeams, Map_values in Ht.
  apply list_elem_of_fmap in Ht as ([k t'] & -> & Hin).
  rewrite Forall_forall in Hteams.
  destruct (Hteams _ Hin) as (Hname & Hdrivers & Hne & Hcodes & Hcolour).
  cbn [fst snd] in *. rewrite <- Hdrivers in Hne, Hcodes, Hcolour.
  split; [exact Hne|]. split.
  { rewrite Hdrivers, Hname. apply head_filter_find. }
  split; [exact Hcolour|]. split; [exact Hcodes|].
  rewrite Hcodes. split; [apply new_Set_NoDup|]. split.
  { apply new_Set_nonempty. destruct (F1Team.drivers t'); [contradiction|discriminate]. }
  intros c. rewrite new_Set_elem. split.
  - intros (d & -> & Hd)%list_elem_of_fmap. now exists d.
  - intros (d & Hd & <-). apply list_elem_of_fmap. now exists d.
Qed.

(** X9: in a successful [fetchTeams] every member carries a non-empty
    country code, and the country codes of a team are non-empty codes that
    its members carry; the result is empty exactly when no driver was
    fetched. *)
Theorem fetchTeams_country_codes {Any : Type} (api : Remote Any)
  (teams : list F1Team) :
  fetchTeams api = Resolved teams ->
  (exists raw,
     get_drivers api 9693 = Resolved raw /\
     teams = aggregateTeams (map normalize raw) /\
     (teams = [] <-> raw = [])) /\
  (forall t, t ∈ teams ->
     (forall d, d ∈ F1Team.drivers t ->
        exists c, F1Driver.country_code d = Some c /\ c <> EmptyString) /\
     (forall c, c ∈ F1Team.country_codes t ->
        c <> EmptyString /\
        exists d, d ∈ F1Team.drivers t /\ F1Driver.country_code d = Some c)).
Proof.
  rewrite fetchTeams_outcome.
  destruct (get_drivers api 9693) as [raw|e] eqn:Hraw; [|discriminate].
  intros [= <-].
  destruct (fold_left_described (map normalize raw)) as [Hkeys Hteams].
  rewrite Forall_forall in Hteams.
  assert (Hmember : forall t d, t ∈ aggregateTeams (map normalize raw) ->
            d ∈ F1Team.drivers t ->
            exists c, F1Driver.country_code d = Some c /\ c <> EmptyString).
  { intros t d ([k t'] & -> & Hin)%list_elem_of_fmap Hd.
    destruct (Hteams _ Hin) as (_ & Hdrivers & _). cbn [fst snd] in *.
    rewrite Hdrivers in Hd. apply list_elem_of_In, filter_In in Hd as [Hd _].
    apply list_elem_of_In, list_elem_of_fmap in Hd as (r & -> & _).
    apply normalize_country_code. }
  split.
  - exists raw. split; [reflexivity|]. split; [reflexivity|].
    split.
    + intros Hnil. destruct raw as [|r raw]; [reflexivity|exfalso].
      unfold aggregateTeams, Map_values in Hnil.
      apply (f_equal (@length _)) in Hnil. rewrite length_map in Hnil.
      rewrite <- (length_map fst), Hkeys in Hnil.
      apply length_zero_iff_nil in Hnil. revert Hnil.
      apply new_Set_nonempty. discriminate.
    + now intros ->.
  - intros t Ht. split; [intros d; now apply Hmember|].
    intros c Hc.
    apply list_elem_of_fmap in Ht as ([k t'] & -> & Hin).
    destruct (Hteams _ Hin) as (_ & Hdrivers & _ & Hcodes & _).
    cbn [fst snd] in *. rewrite <- Hdrivers in Hcodes.
    rewrite Hcodes, new_Set_elem in Hc.
    apply list_elem_of_fmap in Hc as (d & -> & Hd).
    destruct (Hmember t' d) as (c & Hcode & Hne); [|exact Hd|].
    { apply list_elem_of_fmap. now exists (k, t'). }
    assert (E : driver_code d = c).
    { unfold driver_code. rewrite Hcode. now apply or_else_Some_nonempty. }
    rewrite E. split; [exact Hne|]. now exists d.
Qed.

(* ===================================================================== *)
(** ** The gallery page *)
(* ===================================================================== *)

Lemma matchesTeam_no_text (c : string) (m : Z) (t : F1Team) :
  matchesTeam EmptyString c m t
  = (negb (truthy (Some c)) || arr_includes (F1Team.country_codes t) c)
    && (m <=? Z.of_nat (length (F1Team.drivers t))).
Proof.
  unfold matchesTeam. cbn [toLowerCase]. now rewrite includes_empty.
Qed.

Lemma filteredTeams_elem (teams : list F1Team) (q c : string) (m : Z)
  (t : F1Team) :
  t ∈ filteredTeams teams q c m <-> t ∈ teams /\ matchesTeam q c m t = true.
Proof.
  unfold filteredTeams.
  rewrite list_elem_of_In, filter_In, <- list_elem_of_In. reflexivity.
Qed.

Lemma filter_both {A : Type} (f g : A -> bool) (l : list A) :
  List.filter (fun x => f x && g x) l = List.filter g (List.filter f l).
Proof.
  induction l as [|x l IH]; [reflexivity|]. cbn [List.filter].
  destruct (f x); cbn [andb List.filter]; [destruct (g x)|]; now rewrite IH.
Qed.

Lemma matchesTeam_raise (q c : string) (m1 m2 : Z) (t : F1Team) :
  m1 <= m2 ->
  matchesTeam q c m2 t
  = matchesTeam q c m1 t && (m2 <=? Z.of_nat (length (F1Team.drivers t))).
Proof.
  intros Hle. unfold matchesTeam. cbv zeta.
  destruct (Z.leb_spec m2 (Z.of_nat (length (F1Team.drivers t)))) as [H2|H2].
  - replace (m1 <=? Z.of_nat (length (F1Team.drivers t))) with true
      by (symmetry; apply Z.leb_le; lia).
    now rewrite !andb_true_r.
  - now rewrite !andb_false_r.
Qed.

(** X10: the slider of the gallery only takes teams away: the teams shown
    for a larger minimum are those shown for a smaller one that have enough
    drivers, in the same order; and since a team built by [fetchTeams] has
    at least one driver, the minimum 1 shows the same teams as 0. *)
Theorem filteredTeams_min_drivers (teams : list F1Team) (q c : string) :
  (forall m1 m2, m1 <= m2 ->
     filteredTeams teams q c m2
     = List.filter (fun t => m2 <=? Z.of_nat (length (F1Team.drivers t)))
                   (filteredTeams teams q c m1)) /\
  (forall drivers m, teams = aggregateTeams drivers -> m <= 1 ->
     filteredTeams teams q c m = filteredTeams teams q c 0).
Proof.
  split.
  - intros m1 m2 Hle. unfold filteredTeams.
    rewrite <- filter_both. apply filter_ext. intros t.
    now apply matchesTeam_raise.
  - intros drivers m -> Hm. unfold filteredTeams. apply filter_ext_in.
    intros t Ht%list_elem_of_In.
    destruct (fold_left_described drivers) as [_ Hteams].
    rewrite Forall_forall in Hteams.
    apply list_elem_of_fmap in Ht as ([k t'] & -> & Hin).
    destruct (Hteams _ Hin) as (_ & Hdrivers & Hne & _). cbn [fst snd] in *.
    unfold matchesTeam. cbv zeta. f_equal.
    rewrite <- Hdrivers in Hne.
    destruct (F1Team.drivers t') as [|d ds]; [contradiction|]. cbn [length].
    transitivity true; [|symmetry]; apply Z.leb_le; lia.
Qed.

Lemma matchesTeam_text_only (q : string) (t : F1Team) :
  matchesTeam q EmptyString 0 t
  = (includes (toLowerCase (F1Team.team_name t)) (toLowerCase q)
     || existsb
          (fun driver =>
             includes (toLowerCase (F1Driver.full_name driver)) (toLowerCase q)
             || includes (toLowerCase (F1Driver.broadcast_name driver))
                         (toLowerCase q))
          (F1Team.drivers t)).
Proof.
  unfold matchesTeam. cbv zeta.
  replace (0 <=? Z.of_nat (length (F1Team.drivers t))) with true
    by (symmetry; apply Z.leb_le; lia).
  cbn [truthy String.eqb negb orb]. now rewrite !andb_true_r.
Qed.

(** X11: a team of the gallery is always found by its own name and by the
    full name or broadcast name of any of its drivers, with no country
    selected and the slider at 0. *)
Theorem filteredTeams_finds_by_name (teams : list F1Team) (t : F1Team) :
  t ∈ teams ->
  t ∈ filteredTeams teams (F1Team.team_name t) EmptyString 0 /\
  (forall d, d ∈ F1Team.drivers t ->
     t ∈ filteredTeams teams (F1Driver.full_name d) EmptyString 0 /\
     t ∈ filteredTeams teams (F1Driver.broadcast_name d) EmptyString 0).
Proof.
  intros Ht. split.
  - apply filteredTeams_elem. split; [exact Ht|].
    now rewrite matchesTeam_text_only, includes_self.
  - intros d Hd. apply list_elem_of_In in Hd.
    split; apply filteredTeams_elem; (split; [exact Ht|]);
      rewrite matchesTeam_text_only; apply orb_true_iff; right;
      apply existsb_exists; exists d; (split; [exact Hd|]);
      rewrite includes_self; [reflexivity|apply orb_true_r].
Qed.

(** X12: the countries offered by the gallery are strictly ascending, hence
    without duplicates, and are exactly the country codes of the teams;
    choosing an offered (non-empty) country shows exactly the teams that
    have it, at least one. *)
Theorem galleryCountries_offered (teams : list F1Team) :
  StronglySorted (fun a b => codeCompare a b < 0) (galleryCountries teams) /\
  (forall c, c ∈ galleryCountries teams
             <-> exists t, t ∈ teams /\ c ∈ F1Team.country_codes t) /\
  (forall c, c ∈ galleryCountries teams -> c <> EmptyString ->
     filteredTeams teams EmptyString c 0 <> [] /\
     forall t, t ∈ filteredTeams teams EmptyString c 0
               <-> t ∈ teams /\ c ∈ F1Team.country_codes t).
Proof.
  assert (Hmem : forall c, c ∈ galleryCountries teams
                           <-> exists t, t ∈ teams /\ c ∈ F1Team.country_codes t).
  { intros c. unfold galleryCountries.
    rewrite (proj2 (sort_default_new_Set _)), list_elem_of_In, in_flat_map.
    split; intros (t & Ht & Hc); exists t.
    - split; now apply list_elem_of_In.
    - split; now apply list_elem_of_In. }
  split; [apply sort_default_new_Set|]. split; [exact Hmem|].
  intros c (t & Ht & Hc)%Hmem Hne.
  assert (Hall : forall t', t' ∈ filteredTeams teams EmptyString c 0
                            <-> t' ∈ teams /\ c ∈ F1Team.country_codes t').
  { intros t'. rewrite filteredTeams_elem, matchesTeam_no_text, truthy_Some.
    destruct (String.eqb_spec c EmptyString) as [|_]; [contradiction|].
    cbn [negb orb].
    replace (0 <=? Z.of_nat (length (F1Team.drivers t'))) with true
      by (symmetry; apply Z.leb_le; lia).
    now rewrite andb_true_r, arr_includes_elem. }
  split; [|exact Hall].
  intros E. assert (Hin : t ∈ @nil F1Team) by (rewrite <- E; now apply Hall).
  inversion Hin.
Qed.

Lemma find_unique_name (teams : list F1Team) (t : F1Team) :
  NoDup (map F1Team.team_name teams) -> t ∈ teams ->
  find (fun t' => String.eqb (F1Team.team_name t') (F1Team.team_name t)) teams
  = Some t.
Proof.
  unfold find. induction teams as [|x teams IH]; intros Hnd Ht; [inversion Ht|].
  cbn [map] in Hnd. apply NoDup_cons in Hnd as [Hx Hnd]. cbn [List.find].
  destruct (String.eqb_spec (F1Team.team_name x) (F1Team.team_name t)) as [E|E].
  - apply elem_of_cons in Ht as [->|Ht]; [reflexivity|exfalso].
    apply Hx. rewrite E. apply list_elem_of_fmap. now exists t.
  - apply elem_of_cons in Ht as [->|Ht]; [contradiction|]. now apply IH.
Qed.

(** X13: a click on a team of the gallery built by [fetchTeams] always
    navigates, and to the first driver of the input that belongs to the
    team; a team name that is not shown navigates nowhere. *)
Theorem handleTeamClick_first_driver (drivers : list F1Driver) :
  let teams := aggregateTeams drivers in
  (forall t, t ∈ teams ->
     exists d,
       List.find (fun d => String.eqb (team_key d) (F1Team.team_name t)) drivers
       = Some d /\
       handleTeamClick teams (F1Team.team_name t)
       = Some (F1Driver.driver_number d)) /\
  (forall name, (forall d, d ∈ drivers -> team_key d <> name) ->
     handleTeamClick teams name = None).
Proof.
  intros teams.
  destruct (fold_left_described drivers) as [Hkeys Hteams].
  rewrite Forall_forall in Hteams.
  assert (Hnames : map F1Team.team_name teams = new_Set (map team_key drivers)).
  { rewrite <- Hkeys. unfold teams, aggregateTeams, Map_values.
    rewrite map_map. apply map_ext_in. intros e He.
    apply list_elem_of_In in He. now destruct (Hteams e He). }
  split.
  - intros t Ht. unfold handleTeamClick.
    rewrite find_unique_name; [|rewrite Hnames; apply new_Set_NoDup|exact Ht].
    apply list_elem_of_fmap in Ht as ([k t'] & -> & Hin).
    destruct (Hteams _ Hin) as (Hname & Hdrivers & Hne & _).
    cbn [fst snd] in *. rewrite <- Hname in Hdrivers, Hne.
    rewrite <- head_filter_find, <- Hdrivers.
    rewrite <- Hdrivers in Hne.
    destruct (F1Team.drivers t') as [|d ds]; [contradiction|].
    exists d. split; [reflexivity|]. reflexivity.
  - intros name Habs. unfold handleTeamClick, find.
    destruct (List.find _ teams) as [t|] eqn:Hfind; [exfalso|reflexivity].
    apply find_some in Hfind as [Ht Hn]. apply String.eqb_eq in Hn.
    assert (Hin : name ∈ new_Set (map team_key drivers)).
    { rewrite <- Hnames, <- Hn. apply list_elem_of_fmap. exists t.
      split; [reflexivity|now apply list_elem_of_In]. }
    apply new_Set_elem, list_elem_of_fmap in Hin as (d & -> & Hd).
    now apply (Habs d).
Qed.

(* ===================================================================== *)
(** ** Gateway: the most recent laps and sessions *)
(* ===================================================================== *)

Lemma StronglySorted_app_inv {A : Type} (R : A -> A -> Prop) (l1 l2 : list A) :
  StronglySorted R (l1 ++ l2) ->
  StronglySorted R l1 /\ (forall a b, a ∈ l1 -> b ∈ l2 -> R a b).
Proof.
  induction l1 as [|x l1 IH]; cbn [app].
  - intros _. split; [constructor|]. intros a b Ha. inversion Ha.
  - intros Hs. apply StronglySorted_inv in Hs as [Hs Hx].
    destruct (IH Hs) as [H1 H2]. apply Forall_app in Hx as [Hx1 Hx2].
    split; [now constructor|].
    intros a b [->|Ha]%elem_of_cons Hb.
    + rewrite Forall_forall in Hx2. now apply Hx2.
    + now apply H2.
Qed.

(** The first [n] of a sorted array: nothing left out comes before them. *)
Lemma slice_sort_top {A : Type} (cmp : A -> A -> Z) (l : list A) (n : Z) :
  Consistent cmp -> 0 <= n ->
  exists dropped,
    Permutation (slice (sort cmp l) 0 n ++ dropped) l /\
    length (slice (sort cmp l) 0 n) = Nat.min (Z.to_nat n) (length l) /\
    StronglySorted (fun a b => cmp a b <= 0) (slice (sort cmp l) 0 n) /\
    forall a b, a ∈ slice (sort cmp l) 0 n -> b ∈ dropped -> cmp a b <= 0.
Proof.
  intros Hcmp Hn. rewrite slice_prefix by exact Hn.
  exists (drop (Z.to_nat n) (sort cmp l)).
  pose proof (sort_StronglySorted cmp Hcmp l) as Hs.
  rewrite <- (take_drop (Z.to_nat n) (sort cmp l)) in Hs.
  apply StronglySorted_app_inv in Hs as [Hs1 Hs2].
  split; [rewrite take_drop; apply sort_Permutation|].
  split; [rewrite length_take, sort_length; reflexivity|].
  split; assumption.
Qed.

Lemma insert_ext_in {A : Type} (cmp cmp' : A -> A -> Z) (x : A) (l : list A) :
  (forall y, y ∈ l -> cmp x y = cmp' x y) ->
  insert cmp x l = insert cmp' x l.
Proof.
  induction l as [|y l IH]; intros Heq; [reflexivity|]. cbn [insert].
  rewrite (Heq y) by left. rewrite IH; [reflexivity|].
  intros z Hz. apply Heq. now right.
Qed.

(** Only the comparisons between elements of the array matter to [sort]. *)
Lemma sort_ext_in {A : Type} (cmp cmp' : A -> A -> Z) (l : list A) :
  (forall a b, a ∈ l -> b ∈ l -> cmp a b = cmp' a b) ->
  sort cmp l = sort cmp' l.
Proof.
  induction l as [|x l IH]; intros Heq; [reflexivity|]. cbn [sort].
  rewrite IH by (intros a b Ha Hb; apply Heq; now right).
  apply insert_ext_in. intros y Hy. apply Heq; [left|right].
  now rewrite <- (sort_Permutation cmp' l).
Qed.

Lemma StronglySorted_weaken_in {A : Type} (R R' : A -> A -> Prop) (l : list A) :
  (forall a b, a ∈ l -> b ∈ l -> R a b -> R' a b) ->
  StronglySorted R l -> StronglySorted R' l.
Proof.
  induction l as [|x l IH]; intros Himp Hs; [constructor|].
  apply StronglySorted_inv in Hs as [Hs Hx]. constructor.
  - apply IH; [|exact Hs]. intros a b Ha Hb. apply Himp; now right.
  - rewrite Forall_forall in Hx |- *. intros y Hy.
    apply Himp; [left|now right|now apply Hx].
Qed.

(** With every date read, the comparator of [fetchRecentSessions] is the
    difference of two clock readings. *)
Lemma sort_numeric_readable (getTime : string -> option Z)
  (sessions : list F1Session) :
  Forall (fun s => is_Some (getTime (F1Session.date_start s))) sessions ->
  sort_numeric
    (fun a b => minus (getTime (F1Session.date_start b))
                      (getTime (F1Session.date_start a))) sessions
  = sort (fun a b => default 0 (getTime (F1Session.date_start b))
                     - default 0 (getTime (F1Session.date_start a))) sessions.
Proof.
  intros Hread. rewrite Forall_forall in Hread. unfold sort_numeric.
  apply sort_ext_in. intros a b Ha Hb.
  destruct (Hread a Ha) as [ta ->], (Hread b Hb) as [tb ->]. reflexivity.
Qed.

(** X14: [fetchRecentSessions] returns the most recent sessions of 2025:
    on a successful request whose sessions all carry a [date_start] that
    [new Date] can read (its [getTime] is not NaN), and with a non-negative
    limit (5 when omitted), it returns as many sessions as the limit
    allows, latest start first, and no session left out starts later than
    a session returned.  (A date that cannot be read makes the comparisons
    with it NaN, and the order is then no longer by date.) *)
Theorem fetchRecentSessions_most_recent {Any : Type}
  (getTime : string -> option Z) (api : Remote Any) (limit : option Z)
  (sessions : list F1Session) :
  get_sessions api 2025 = Resolved sessions ->
  Forall (fun s => is_Some (getTime (F1Session.date_start s))) sessions ->
  0 <= default 5 limit ->
  exists result dropped,
    fetchRecentSessions getTime api limit = Resolved result /\
    Permutation (result ++ dropped) sessions /\
    length result = Nat.min (Z.to_nat (default 5 limit)) (length sessions) /\
    StronglySorted (fun a b => starts_no_later getTime b a) result /\
    forall a b, a ∈ result -> b ∈ dropped -> starts_no_later getTime b a.
Proof.
  intros Hget Hread Hlimit.
  set (time := fun s : F1Session => default 0 (getTime (F1Session.date_start s))).
  set (cmp := fun a b : F1Session => time b - time a).
  assert (Hcmp : Consistent cmp).
  { apply (Consistent_on time (fun a b => b - a)), Consistent_rev_minus. }
  destruct (slice_sort_top cmp sessions (default 5 limit) Hcmp Hlimit)
    as (dropped & Hperm & Hlen & Hsorted & Htop).
  set (result := slice (sort cmp sessions) 0 (default 5 limit)) in *.
  assert (Hlater : forall a b, a ∈ result ++ dropped -> b ∈ result ++ dropped ->
                               cmp a b <= 0 -> starts_no_later getTime b a).
  { rewrite Forall_forall in Hread. intros a b Ha Hb Hab.
    rewrite Hperm in Ha, Hb. unfold cmp, time in Hab.
    destruct (Hread a Ha) as [ta Hta], (Hread b Hb) as [tb Htb].
    rewrite Hta, Htb in Hab. cbn in Hab.
    exists tb, ta. split; [exact Htb|]. split; [exact Hta|lia]. }
  exists result, dropped. split.
  { unfold fetchRecentSessions. cbn [mbind Promise_bind bind]. rewrite Hget.
    cbn [mbind Promise_bind bind try_catch].
    now rewrite (sort_numeric_readable getTime sessions Hread). }
  split; [exact Hperm|]. split; [exact Hlen|]. split.
  - apply (StronglySorted_weaken_in (fun a b => cmp a b <= 0)); [|exact Hsorted].
    intros a b Ha Hb. apply Hlater; apply elem_of_app; now left.
  - intros a b Ha Hb. apply Hlater; [| |now apply Htop];
      apply elem_of_app; [now left|now right].
Qed.

(** X15: the laps [fetchDriverLaps] returns are the highest-numbered ones:
    on a successful request with a non-negative limit (10 when omitted) it
    returns as many laps as the limit allows, and no lap left out has a
    greater [lap_number] than a lap returned. *)
Theorem fetchDriverLaps_highest {Any : Type} (api : Remote Any)
  (driverNumber : Z) (limit : option Z) (laps : list F1Lap) :
  get_laps api driverNumber 9693 = Resolved laps ->
  0 <= default 10 limit ->
  exists result dropped,
    fetchDriverLaps api driverNumber limit = Resolved result /\
    Permutation (result ++ dropped) laps /\
    length result = Nat.min (Z.to_nat (default 10 limit)) (length laps) /\
    forall a b, a ∈ result -> b ∈ dropped ->
      F1Lap.lap_number b <= F1Lap.lap_number a.
Proof.
  intros Hget Hlimit.
  set (cmp := fun a b : F1Lap => F1Lap.lap_number b - F1Lap.lap_number a).
  assert (Hcmp : Consistent cmp).
  { apply (Consistent_on F1Lap.lap_number (fun a b => b - a)), Consistent_rev_minus. }
  destruct (slice_sort_top cmp laps (default 10 limit) Hcmp Hlimit)
    as (dropped & Hperm & Hlen & _ & Htop).
  exists (slice (sort cmp laps) 0 (default 10 limit)), dropped.
  split.
  { unfold fetchDriverLaps, getRecentSessionKey. cbn [mbind Promise_bind bind].
    now rewrite Hget. }
  split; [exact Hperm|]. split; [exact Hlen|].
  intros a b Ha Hb. specialize (Htop a b Ha Hb). unfold cmp in Htop. lia.
Qed.

(** X16: [fetchSessionResults] never rejects; the session key 0 is taken
    for a missing key, so that session 9693 is queried in both cases; a
    failed request and a null body both give the empty list. *)
Theorem fetchSessionResults_outcome {Any : Type} (api : Remote Any)
  (sessionKey : option Z) :
  fetchSessionResults api (Some 0) = fetchSessionResults api None /\
  (exists results, fetchSessionResults api sessionKey = Resolved results) /\
  fetchSessionResults api sessionKey
  = let queried :=
      match sessionKey with
      | Some k => if k =? 0 then 9693 else k
      | None => 9693
      end in
    match get_session_result api queried with
    | Resolved (Some results) => Resolved results
    | Resolved None => Resolved []
    | Rejected _ => Resolved []
    end.
Proof.
  assert (Hbody : fetchSessionResults api sessionKey
                  = match get_session_result api
                            match sessionKey with
                            | Some k => if k =? 0 then 9693 else k
                            | None => 9693
                            end with
                    | Resolved (Some results) => Resolved results
                    | Resolved None => Resolved []
                    | Rejected _ => Resolved []
                    end).
  { unfold fetchSessionResults, getRecentSessionKey.
    destruct sessionKey as [k|]; [destruct (k =? 0)|];
      cbn [mbind Promise_bind bind];
      match goal with
      | |- context [get_session_result api ?k] =>
          destruct (get_session_result api k) as [[results|]|e]
      end; reflexivity. }
  split; [reflexivity|]. split; [|exact Hbody].
  rewrite Hbody.
  match goal with
  | |- context [get_session_result api ?k] =>
      destruct (get_session_result api k) as [[results|]|e]
  end; eauto.
Qed.

(* ===================================================================== *)
(** ** Navigation there and back *)
(* ===================================================================== *)

Lemma findIndex_unique (l : list F1Driver) (k : nat) (x : F1Driver) :
  NoDup (map F1Driver.driver_number l) -> l !! k = Some x ->
  findIndex (fun d => F1Driver.driver_number d =? F1Driver.driver_number x) l
  = Z.of_nat k.
Proof.
  intros Hnd Hk. unfold findIndex.
  destruct (findIndex_from_spec
              (fun d => F1Driver.driver_number d =? F1Driver.driver_number x) l 0)
    as [[_ F]|(k' & y & E & Hk' & Hy & _)].
  - exfalso. rewrite Forall_forall in F.
    assert (Hx : x ∈ l) by (eapply list_elem_of_lookup_2; eassumption).
    specialize (F x Hx). cbv beta in F. rewrite Z.eqb_refl in F. discriminate.
  - apply Z.eqb_eq in Hy. rewrite E, Z.add_0_l. f_equal.
    apply (NoDup_lookup _ k' k (F1Driver.driver_number x) Hnd).
    + change (map F1Driver.driver_number) with (fmap (M:=list) F1Driver.driver_number).
      rewrite list_lookup_fmap, Hk'. cbn. congruence.
    + change (map F1Driver.driver_number) with (fmap (M:=list) F1Driver.driver_number).
      now rewrite list_lookup_fmap, Hk.
Qed.

(** With unique driver numbers the driver at a position of the sorted list
    is navigated from that position. *)
Lemma navigate_at_position (drivers : list F1Driver) (j : nat) (x : F1Driver) :
  let sorted := sort (fun a b => F1Driver.driver_number a
                                 - F1Driver.driver_number b) drivers in
  NoDup (map F1Driver.driver_number drivers) -> sorted !! j = Some x ->
  navigate drivers (F1Driver.driver_number x)
  = {| previous := match j with O => None | S i => sorted !! i end;
       next := sorted !! S j |}.
Proof.
  intros sorted Hnodup Hj.
  assert (Hperm : Permutation sorted drivers) by apply sort_Permutation.
  assert (Hnd : NoDup (map F1Driver.driver_number sorted))
    by (rewrite Hperm; exact Hnodup).
  apply navigate_found. now apply findIndex_unique.
Qed.

Lemma sort_byNumber_strict (drivers : list F1Driver) (i j : nat)
  (x y : F1Driver) :
  let sorted := sort (fun a b => F1Driver.driver_number a
                                 - F1Driver.driver_number b) drivers in
  NoDup (map F1Driver.driver_number drivers) -> (i < j)%nat ->
  sorted !! i = Some x -> sorted !! j = Some y ->
  F1Driver.driver_number x < F1Driver.driver_number y.
Proof.
  intros sorted Hnodup Hij Hi Hj.
  assert (Hperm : Permutation sorted drivers) by apply sort_Permutation.
  assert (Hnd : NoDup (map F1Driver.driver_number sorted))
    by (rewrite Hperm; exact Hnodup).
  pose proof (StronglySorted_lookup _ _ _ _ _ _
                (sort_byNumber_sorted drivers) Hij Hi Hj) as Hle.
  cbv beta in Hle.
  destruct (Z.eq_dec (F1Driver.driver_number x) (F1Driver.driver_number y))
    as [E|E]; [exfalso|lia].
  assert (i = j); [|lia].
  apply (NoDup_lookup _ i j (F1Driver.driver_number x) Hnd);
    change (map F1Driver.driver_number) with (fmap (M:=list) F1Driver.driver_number);
    rewrite list_lookup_fmap; [rewrite Hi|rewrite Hj]; cbn; congruence.
Qed.

(** X17: with unique driver numbers, navigation is reversible: from a
    driver of the collection, the next driver has a greater number and its
    previous driver is the one started from; the previous driver has a
    smaller number and its next driver is the one started from. *)
Theorem navigate_round_trip (drivers : list F1Driver) (d : F1Driver) :
  NoDup (map F1Driver.driver_number drivers) -> d ∈ drivers ->
  (forall q, next (navigate drivers (F1Driver.driver_number d)) = Some q ->
             q ∈ drivers /\
             F1Driver.driver_number d < F1Driver.driver_number q /\
             previous (navigate drivers (F1Driver.driver_number q)) = Some d) /\
  (forall p, previous (navigate drivers (F1Driver.driver_number d)) = Some p ->
             p ∈ drivers /\
             F1Driver.driver_number p < F1Driver.driver_number d /\
             next (navigate drivers (F1Driver.driver_number p)) = Some d).
Proof.
  intros Hnodup Hd.
  set (sorted := sort (fun a b => F1Driver.driver_number a
                                  - F1Driver.driver_number b) drivers).
  assert (Hperm : Permutation sorted drivers) by apply sort_Permutation.
  assert (Hin : d ∈ sorted) by (rewrite Hperm; exact Hd).
  apply list_elem_of_lookup in Hin as [k Hk].
  rewrite (navigate_at_position drivers k d Hnodup Hk). cbn [previous next].
  fold sorted. split.
  - intros q Hq. split; [|split].
    + rewrite <- Hperm. eapply list_elem_of_lookup_2; eassumption.
    + apply (sort_byNumber_strict drivers k (S k)); [assumption|lia|assumption..].
    + rewrite (navigate_at_position drivers (S k) q Hnodup Hq). exact Hk.
  - intros p Hp. destruct k as [|i]; [discriminate|]. split; [|split].
    + rewrite <- Hperm. eapply list_elem_of_lookup_2; eassumption.
    + apply (sort_byNumber_strict drivers i (S i)); [assumption|lia|assumption..].
    + rewrite (navigate_at_position drivers i p Hnodup Hp). exact Hk.
Qed.

(* ===================================================================== *)
(** ** The detail page *)
(* ===================================================================== *)

Lemma fetchDriverById_eq {Any : Type} (api : Remote Any) (driverNumber : Z) :
  fetchDriverById api driverNumber
  = match get_drivers api 9693 with
    | Resolved raw =>
        Resolved (find (fun d => F1Driver.driver_number d =? driverNumber)
                       (map normalize raw))
    | Rejected _ => Resolved None
    end.
Proof.
  unfold fetchDriverById. rewrite fetchDrivers_outcome.
  now destruct (get_drivers api 9693).
Qed.

Lemma slice_length_le {A : Type} (l : list A) (n : Z) :
  0 <= n -> (length (slice l 0 n) <= Z.to_nat n)%nat.
Proof. intros Hn. rewrite slice_prefix by exact Hn. rewrite length_take. lia. Qed.

Lemma fetchDriverLaps_default {Any : Type} (api : Remote Any) (driverNumber : Z) :
  exists lapsData,
    fetchDriverLaps api driverNumber None = Resolved lapsData /\
    (length lapsData <= 10)%nat.
Proof.
  unfold fetchDriverLaps, getRecentSessionKey. cbn [mbind Promise_bind bind default].
  destruct (get_laps api driverNumber 9693) as [laps|e]; cbn [bind try_catch].
  - eexists. split; [reflexivity|].
    apply (slice_length_le _ 10). lia.
  - exists []. split; [reflexivity|cbn; lia].
Qed.

Section DetailPageFacts.

Context {Any : Type}.
Variable numberToString : Z -> string.

Import DetailPage.

(** What [loadDriverData] leaves, by the outcome of the lookup. *)
Lemma loadDriverData_cases (api : Remote Any) (driverNum : Z) (st : State) :
  exists found lapsData navData,
    fetchDriverById api driverNum = Resolved found /\
    fetchDriverLaps api driverNum None = Resolved lapsData /\
    (length lapsData <= 10)%nat /\
    getDriverNavigation api driverNum = Resolved navData /\
    loadDriverData numberToString api driverNum st
    = match found with
      | Some d =>
          {| driver := Some d; laps := lapsData; navigation := navData;
             loading := false; error := None |}
      | None =>
          {| driver := driver st; laps := laps st; navigation := navigation st;
             loading := false;
             error :=
               Some (String.append "Driver with number "
                       (String.append (numberToString driverNum) " not found.")) |}
      end.
Proof.
  destruct (fetchDriverLaps_default api driverNum) as (lapsData & Hlaps & Hlen).
  assert (Hfound : exists found, fetchDriverById api driverNum = Resolved found).
  { rewrite fetchDriverById_eq. destruct (get_drivers api 9693); eauto. }
  assert (Hnav : exists navData, getDriverNavigation api driverNum = Resolved navData).
  { rewrite getDriverNavigation_outcome. destruct (get_drivers api 9693); eauto. }
  destruct Hfound as [found Hfound], Hnav as [navData Hnav].
  exists found, lapsData, navData. repeat (split; [assumption|]).
  unfold loadDriverData. rewrite Hfound, Hlaps, Hnav. cbn [Promise_all3].
  now destruct found.
Qed.

(** X18: [loadDriverData] always ends with the loading flag down and never
    with the error "Failed to load driver data": none of the three requests
    it joins can reject.  When the driver is found the page holds it with
    its laps and its navigation and shows no error; when it is not found,
    and equally when the service cannot be reached, the error names the
    driver number as not found and driver, laps and navigation stay as they
    were, the error panel being shown. *)
Theorem loadDriverData_outcome (api : Remote Any) (driverNum : Z) (st : State) :
  let st' := loadDriverData numberToString api driverNum st in
  let notFound :=
    Some (String.append "Driver with number "
            (String.append (numberToString driverNum) " not found.")) in
  loading st' = false /\
  error st' <> Some "Failed to load driver data" /\
  (forall d, fetchDriverById api driverNum = Resolved (Some d) ->
     F1Driver.driver_number d = driverNum /\
     driver st' = Some d /\ error st' = None /\ showsError st' = false /\
     fetchDriverLaps api driverNum None = Resolved (laps st') /\
     getDriverNavigation api driverNum = Resolved (navigation st')) /\
  (fetchDriverById api driverNum = Resolved None ->
     error st' = notFound /\ showsError st' = true /\
     driver st' = driver st /\ laps st' = laps st /\
     navigation st' = navigation st) /\
  (forall e, get_drivers api 9693 = Rejected e -> error st' = notFound).
Proof.
  intros st' notFound.
  destruct (loadDriverData_cases api driverNum st)
    as (found & lapsData & navData & Hfound & Hlaps & _ & Hnav & Hst).
  fold st' in Hst.
  split; [rewrite Hst; now destruct found|].
  split; [rewrite Hst; destruct found; discriminate|].
  split; [|split].
  - intros d Hd. rewrite Hfound in Hd. injection Hd as ->.
    rewrite Hst. cbn. repeat split; try assumption.
    rewrite fetchDriverById_eq in Hfound.
    destruct (get_drivers api 9693) as [raw|e]; [|discriminate].
    injection Hfound as Hfind. apply find_some in Hfind as [_ Hnum].
    now apply Z.eqb_eq.
  - intros Hnone. rewrite Hfound in Hnone. injection Hnone as ->.
    rewrite Hst. cbn. now repeat split.
  - intros e He. rewrite fetchDriverById_eq, He in Hfound.
    injection Hfound as <-. now rewrite Hst.
Qed.

(** X19: the detail page never holds more than ten laps, whatever drivers
    were visited and however the service answered: the table shows every
    lap held ([slice(0, 10)] takes nothing away) and the note on hidden laps
    never shows. *)
Theorem visited_laps_bounded (visits : list (Remote Any * Z)) :
  let st := visited numberToString visits in
  (length (laps st) <= 10)%nat /\
  shownLaps st = laps st /\
  showsHiddenLapsNote st = false.
Proof.
  intros st.
  assert (Hlen : (length (laps st) <= 10)%nat).
  { unfold st, visited. induction visits as [|[api n] visits IH] using rev_ind.
    - cbn. lia.
    - rewrite fold_left_app. cbn [fold_left fst snd].
      set (prev := fold_left _ visits initial) in *.
      destruct (loadDriverData_cases api n prev)
        as (found & lapsData & navData & _ & _ & Hle & _ & ->).
      now destruct found. }
  split; [exact Hlen|]. split.
  - unfold shownLaps. rewrite slice_prefix by lia. apply take_ge.
    change (Z.to_nat 10) with 10%nat. lia.
  - unfold showsHiddenLapsNote. apply Z.ltb_ge. lia.
Qed.

Lemma find_number_present (drivers : list F1Driver) (x : F1Driver) :
  NoDup (map F1Driver.driver_number drivers) -> x ∈ drivers ->
  find (fun d => F1Driver.driver_number d =? F1Driver.driver_number x) drivers
  = Some x.
Proof.
  unfold find. induction drivers as [|y l IH]; intros Hnd Hx; [inversion Hx|].
  cbn [map] in Hnd. apply NoDup_cons in Hnd as [Hy Hnd]. cbn [List.find].
  destruct (Z.eqb_spec (F1Driver.driver_number y) (F1Driver.driver_number x))
    as [E|E].
  - apply elem_of_cons in Hx as [->|Hx]; [reflexivity|exfalso].
    apply Hy. rewrite E. apply list_elem_of_fmap. now exists x.
  - apply elem_of_cons in Hx as [->|Hx]; [contradiction|]. now apply IH.
Qed.

(** X20: with unique driver numbers in what the service answers, the
    buttons of the detail page undo each other: from a loaded driver,
    following "Next" and then "Previous" leads back to that driver's
    number, and so does "Previous" followed by "Next". *)
Theorem detail_page_next_previous (api : Remote Any) (raw : list F1Driver)
  (driverNum : Z) (st : State) :
  get_drivers api 9693 = Resolved raw ->
  NoDup (map F1Driver.driver_number raw) ->
  (exists d, d ∈ raw /\ F1Driver.driver_number d = driverNum) ->
  let st1 := loadDriverData numberToString api driverNum st in
  (forall m, handleNextDriver st1 = Some m ->
     let st2 := loadDriverData numberToString api m st1 in
     error st2 = None /\ handlePreviousDriver st2 = Some driverNum) /\
  (forall m, handlePreviousDriver st1 = Some m ->
     let st2 := loadDriverData numberToString api m st1 in
     error st2 = None /\ handleNextDriver st2 = Some driverNum).
Proof.
  intros Hraw Hnodup (r & Hr & Hnum) st1.
  set (ds := map normalize raw).
  assert (Hnd : NoDup (map F1Driver.driver_number ds)).
  { unfold ds. rewrite map_map.
    erewrite map_ext; [exact Hnodup|]. intros a. reflexivity. }
  assert (Hload : forall x s, x ∈ ds ->
            loadDriverData numberToString api (F1Driver.driver_number x) s
            = {| driver := Some x;
                 laps := laps (loadDriverData numberToString api
                                 (F1Driver.driver_number x) s);
                 navigation := navigate ds (F1Driver.driver_number x);
                 loading := false; error := None |}).
  { intros x s Hx.
    destruct (loadDriverData_cases api (F1Driver.driver_number x) s)
      as (found & lapsData & navData & Hfound & _ & _ & Hnav & Hst).
    rewrite fetchDriverById_eq, Hraw in Hfound. fold ds in Hfound.
    rewrite (find_number_present ds x Hnd Hx) in Hfound. injection Hfound as <-.
    rewrite getDriverNavigation_outcome, Hraw in Hnav. fold ds in Hnav.
    injection Hnav as <-. rewrite Hst. reflexivity. }
  assert (Hd : normalize r ∈ ds) by (apply list_elem_of_fmap; now exists r).
  assert (Hst1 : navigation st1 = navigate ds driverNum).
  { unfold st1. rewrite <- Hnum.
    change (F1Driver.driver_number r)
      with (F1Driver.driver_number (normalize r)).
    now rewrite (Hload (normalize r) st Hd). }
  set (sorted := sort (fun a b => F1Driver.driver_number a
                                  - F1Driver.driver_number b) ds).
  assert (Hperm : Permutation sorted ds) by apply sort_Permutation.
  assert (Hin : normalize r ∈ sorted) by (rewrite Hperm; exact Hd).
  apply list_elem_of_lookup in Hin as [k Hk].
  pose proof (navigate_at_position ds k (normalize r) Hnd Hk) as Hnav.
  change (F1Driver.driver_number (normalize r)) with (F1Driver.driver_number r)
    in Hnav.
  rewrite Hnum in Hnav. fold sorted in Hnav.
  unfold handleNextDriver, handlePreviousDriver. rewrite Hst1, Hnav.
  cbn [previous next]. split.
  - intros m Hm. destruct (sorted !! S k) as [q|] eqn:Hq; [|discriminate].
    injection Hm as <-.
    assert (Hqin : q ∈ ds)
      by (rewrite <- Hperm; eapply list_elem_of_lookup_2; eassumption).
    cbv zeta. rewrite (Hload q st1 Hqin). cbn [error navigation].
    split; [reflexivity|].
    rewrite (navigate_at_position ds (S k) q Hnd Hq). cbn [previous].
    fold sorted. rewrite Hk. cbn. now rewrite <- Hnum.
  - intros m Hm. destruct k as [|i]; [discriminate|].
    destruct (sorted !! i) as [p|] eqn:Hp; [|discriminate].
    injection Hm as <-.
    assert (Hpin : p ∈ ds)
      by (rewrite <- Hperm; eapply list_elem_of_lookup_2; eassumption).
    cbv zeta. rewrite (Hload p st1 Hpin). cbn [error navigation].
    split; [reflexivity|].
    rewrite (navigate_at_position ds i p Hnd Hp). cbn [next].
    fold sorted. rewrite Hk. cbn. now rewrite <- Hnum.
Qed.

End DetailPageFacts.

(* ===================================================================== *)
(** ** The further statements at work on sample data *)
(* ===================================================================== *)

Lemma sampleDrivers_unique : NoDup (map F1Driver.driver_number sampleDrivers).
Proof.
  cbn. repeat (constructor; [rewrite ?elem_of_cons, elem_of_nil; lia|]).
  constructor.
Qed.

(** "Ferrari" is offered by the team select for the sample drivers. *)
Lemma filterOptions_sorted_distinct_sample :
  "Ferrari" ∈ fst (filterOptions sampleDrivers).
Proof.
  destruct (filterOptions_sorted_distinct sampleDrivers) as (_ & Hteams & _).
  apply Hteams. split; [discriminate|].
  exists (sampleDriver 44 "Lewis HAMILTON" (Some "GBR") (Some "Ferrari")).
  split; [left|reflexivity].
Defined.

(** Choosing "Ferrari" for the sample drivers shows some driver. *)
Lemma filterOptions_never_empty_sample :
  filterAndSort codeCompare sampleDrivers EmptyString "Ferrari" EmptyString
    {| SortConfig.option := opt_name; SortConfig.order := asc |} <> [].
Proof.
  destruct (filterOptions_never_empty codeCompare sampleDrivers
              {| SortConfig.option := opt_name; SortConfig.order := asc |})
    as [Hteams _].
  apply Hteams. vm_compute. left.
Defined.

(** Searching "Max VERSTAPPEN" among the sample drivers finds him. *)
Lemma filterAndSort_finds_by_name_sample :
  sampleDriver 1 "Max VERSTAPPEN" None (Some "Red Bull Racing")
  ∈ filterAndSort codeCompare sampleDrivers "Max VERSTAPPEN" EmptyString
      EmptyString {| SortConfig.option := opt_team; SortConfig.order := desc |}.
Proof.
  destruct (filterAndSort_finds_by_name codeCompare sampleDrivers
              (sampleDriver 1 "Max VERSTAPPEN" None (Some "Red Bull Racing"))
              {| SortConfig.option := opt_team; SortConfig.order := desc |})
    as [Hfull _]; [unfold sampleDrivers; right; left|exact Hfull].
Defined.

(** The Ferrari view of the sample drivers is the full view filtered. *)
Lemma filterAndSort_sorted_view_sample :
  filterAndSort codeCompare sampleDrivers EmptyString "Ferrari" EmptyString
    {| SortConfig.option := opt_name; SortConfig.order := asc |}
  = List.filter (matchesDriver EmptyString "Ferrari" EmptyString)
      (filterAndSort codeCompare sampleDrivers EmptyString EmptyString EmptyString
         {| SortConfig.option := opt_name; SortConfig.order := asc |}).
Proof.
  apply (filterAndSort_sorted_view codeCompare codeCompare_Consistent
           sampleDrivers EmptyString "Ferrari" EmptyString
           {| SortConfig.option := opt_name; SortConfig.order := asc |}).
Defined.

(** The sample drivers by descending number are the ascending list
    reversed. *)
Lemma filterAndSort_desc_reverses_sample :
  filterAndSort codeCompare sampleDrivers EmptyString EmptyString EmptyString
    {| SortConfig.option := opt_driver_number; SortConfig.order := desc |}
  = rev (filterAndSort codeCompare sampleDrivers EmptyString EmptyString
           EmptyString
           {| SortConfig.option := opt_driver_number; SortConfig.order := asc |}).
Proof.
  apply (filterAndSort_desc_reverses codeCompare codeCompare_Consistent
           sampleDrivers EmptyString EmptyString EmptyString opt_driver_number);
    [reflexivity|apply sampleDrivers_unique].
Defined.

(** Two clicks on the active "team" button. *)
Lemma handleSort_toggles_sample :
  handleSort opt_team
    (handleSort opt_team {| SortConfig.option := opt_team; SortConfig.order := desc |})
  = {| SortConfig.option := opt_team; SortConfig.order := desc |}.
Proof.
  apply (handleSort_toggles opt_team
           {| SortConfig.option := opt_team; SortConfig.order := desc |}).
  reflexivity.
Defined.

(** The driver without a team puts "Unknown Team" among the sample teams. *)
Lemma aggregateTeams_first_seen_order_sample :
  "Unknown Team" ∈ map F1Team.team_name (aggregateTeams sampleDrivers).
Proof.
  destruct (aggregateTeams_first_seen_order sampleDrivers) as (_ & Hnames & _).
  apply Hnames. exists (sampleDriver 7 "Jack DOOHAN" None None).
  split; [|reflexivity]. unfold sampleDrivers. do 3 right. left.
Defined.

(** The first sample team has duplicate-free country codes. *)
Lemma aggregateTeams_team_contents_sample :
  exists t,
    aggregateTeams sampleDrivers !! 0%nat = Some t /\
    NoDup (F1Team.country_codes t) /\
    F1Team.team_colour t = None.
Proof.
  eexists. split; [vm_compute; reflexivity|].
  match goal with
  | |- NoDup (F1Team.country_codes ?t) /\ _ =>
      destruct (aggregateTeams_team_contents sampleDrivers t)
        as (_ & _ & Hcolour & _ & Hnodup & _); [vm_compute; left|]
  end.
  split; [exact Hnodup|exact Hcolour].
Defined.

(** The teams of the recorded sample drivers. *)
Lemma fetchTeams_country_codes_sample :
  exists raw,
    get_drivers (recorded sampleDrivers sampleLaps) 9693 = Resolved raw /\
    aggregateTeams (map normalize sampleDrivers)
    = aggregateTeams (map normalize raw) /\
    (aggregateTeams (map normalize sampleDrivers) = [] <-> raw = []).
Proof.
  apply (fetchTeams_country_codes (recorded sampleDrivers sampleLaps)).
  reflexivity.
Defined.

(** Raising the slider from 0 to 2 on the sample teams. *)
Lemma filteredTeams_min_drivers_sample :
  filteredTeams (aggregateTeams sampleDrivers) EmptyString EmptyString 2
  = List.filter (fun t => 2 <=? Z.of_nat (length (F1Team.drivers t)))
      (filteredTeams (aggregateTeams sampleDrivers) EmptyString EmptyString 0).
Proof.
  apply (filteredTeams_min_drivers (aggregateTeams sampleDrivers)
           EmptyString EmptyString).
  lia.
Defined.

(** The first sample team is found by its name. *)
Lemma filteredTeams_finds_by_name_sample :
  exists t,
    aggregateTeams sampleDrivers !! 0%nat = Some t /\
    t ∈ filteredTeams (aggregateTeams sampleDrivers) (F1Team.team_name t)
          EmptyString 0.
Proof.
  eexists. split; [vm_compute; reflexivity|].
  match goal with
  | |- ?t ∈ _ =>
      apply (filteredTeams_finds_by_name (aggregateTeams sampleDrivers) t)
  end.
  vm_compute. left.
Defined.

(** "GBR" is offered by the gallery for the sample teams and shows one. *)
Lemma galleryCountries_offered_sample :
  filteredTeams (aggregateTeams sampleDrivers) EmptyString "GBR" 0 <> [].
Proof.
  destruct (galleryCountries_offered (aggregateTeams sampleDrivers))
    as (_ & _ & Hoffered).
  apply Hoffered; [vm_compute; left|discriminate].
Defined.

(** A click on "Ferrari" among the sample teams goes to driver 44. *)
Lemma handleTeamClick_first_driver_sample :
  handleTeamClick (aggregateTeams sampleDrivers) "Ferrari" = Some 44.
Proof.
  pose proof (handleTeamClick_first_driver sampleDrivers) as [Hshown _].
  assert (Ht : exists t, aggregateTeams sampleDrivers !! 0%nat = Some t /\
                         F1Team.team_name t = "Ferrari")
    by (eexists; split; vm_compute; reflexivity).
  destruct Ht as (t & Ht & Hname).
  destruct (Hshown t) as (d & Hfind & Hclick).
  { eapply list_elem_of_lookup_2. exact Ht. }
  rewrite Hname in Hfind, Hclick. vm_compute in Hfind.
  injection Hfind as <-. exact Hclick.
Defined.

(** The two most recent of the three sample sessions: the race, then the
    qualifying. *)
Lemma fetchRecentSessions_most_recent_sample :
  Forall (fun s => is_Some (utcTime (F1Session.date_start s))) sampleSessions /\
  utcTime "2025-03-16T04:00:00+00:00" = Some 1742097600000 /\
  exists result dropped,
    fetchRecentSessions utcTime (scheduled sampleSessions) (Some 2)
    = Resolved result /\
    map F1Session.session_name result = ["Race"; "Qualifying"] /\
    Permutation (result ++ dropped) sampleSessions /\
    forall a b, a ∈ result -> b ∈ dropped -> starts_no_later utcTime b a.
Proof.
  assert (Hread : Forall (fun s => is_Some (utcTime (F1Session.date_start s)))
                         sampleSessions).
  { repeat constructor; eexists; vm_compute; reflexivity. }
  split; [exact Hread|]. split; [vm_compute; reflexivity|].
  destruct (fetchRecentSessions_most_recent utcTime (scheduled sampleSessions)
              (Some 2) sampleSessions)
    as (result & dropped & Hres & Hperm & _ & _ & Htop);
    [reflexivity|exact Hread|cbn; lia|].
  exists result, dropped. split; [exact Hres|].
  split; [|split; [exact Hperm|exact Htop]].
  vm_compute in Hres. injection Hres as <-. reflexivity.
Defined.

(** The condition on the dates is needed: of the sessions of January, of
    an unreadable date and of June, in this order, every comparison with
    the second is NaN, read as equal, and nothing is moved: with limit 1
    the session of January is returned while the later one of June is left
    out. *)
Lemma fetchRecentSessions_unreadable_date :
  map (fun s => utcTime (F1Session.date_start s)) undatedSessions
  = [Some 1736499600000; None; Some 1750010400000] /\
  fetchRecentSessions utcTime (scheduled undatedSessions) (Some 1)
  = Resolved [sampleSession "Testing" "2025-01-10T09:00:00+00:00"].
Proof. split; vm_compute; reflexivity. Qed.

(** The ten highest of the twelve sample laps. *)
Lemma fetchDriverLaps_highest_sample :
  exists result dropped,
    fetchDriverLaps (recorded sampleDrivers sampleLaps) 1 None = Resolved result /\
    Permutation (result ++ dropped) sampleLaps /\
    length result = 10%nat.
Proof.
  destruct (fetchDriverLaps_highest (recorded sampleDrivers sampleLaps) 1 None
              sampleLaps)
    as (result & dropped & Hres & Hperm & Hlen & _); [reflexivity|cbn; lia|].
  exists result, dropped. repeat split; assumption.
Defined.

(** From driver 16 of the sample drivers to the next one and back. *)
Lemma navigate_round_trip_sample :
  exists q,
    next (navigate sampleDrivers 16) = Some q /\
    previous (navigate sampleDrivers (F1Driver.driver_number q))
    = Some (sampleDriver 16 "Charles LECLERC" (Some EmptyString) (Some "Ferrari")).
Proof.
  eexists. split; [vm_compute; reflexivity|].
  destruct (navigate_round_trip sampleDrivers
              (sampleDriver 16 "Charles LECLERC" (Some EmptyString) (Some "Ferrari")))
    as [Hnext _].
  - apply sampleDrivers_unique.
  - unfold sampleDrivers. do 2 right. left.
  - apply Hnext. vm_compute. reflexivity.
Defined.

(** Unreachable service: the detail page reports driver 16 as not found. *)
Lemma loadDriverData_outcome_sample :
  DetailPage.error
    (DetailPage.loadDriverData decimal offline 16 DetailPage.initial)
  = Some "Driver with number 16 not found.".
Proof.
  destruct (loadDriverData_outcome decimal offline 16 DetailPage.initial)
    as (_ & _ & _ & _ & Hrejected).
  apply (Hrejected RemoteUnavailable). reflexivity.
Defined.

(** On the page of driver 16, "Next" and then "Previous" lead back to 16. *)
Lemma detail_page_next_previous_sample :
  let api := recorded sampleDrivers sampleLaps in
  let st1 := DetailPage.loadDriverData decimal api 16 DetailPage.initial in
  exists m,
    DetailPage.handleNextDriver st1 = Some m /\
    DetailPage.handlePreviousDriver (DetailPage.loadDriverData decimal api m st1)
    = Some 16.
Proof.
  intros api st1. exists 44. split; [vm_compute; reflexivity|].
  destruct (detail_page_next_previous decimal api sampleDrivers 16
              DetailPage.initial) as [Hnext _].
  - reflexivity.
  - apply sampleDrivers_unique.
  - exists (sampleDriver 16 "Charles LECLERC" (Some EmptyString) (Some "Ferrari")).
    split; [unfold sampleDrivers; do 2 right; left|reflexivity].
  - destruct (Hnext 44) as [_ Hback]; [vm_compute; reflexivity|exact Hback].
Defined.
